(** * ifrit: the gossip handlers of a Fireflies-style membership protocol

    A shallow embedding of
      - [core/handlers.go]  (Spread, Messenger, mergeViews, mergeNotes,
                             mergeAccusations, mergeCertificates,
                             evalAccusation, evalNote, evalCertificate,
                             validateCtx),
      - [lib/node/ping.go]  (the pinger's ping and signPong, the Monitor of
                             both strategies, the [correct] strategy's
                             Rebuttal, createFalseAccusations), and
      - the client facade   (SetGossipContent),
    together with the properties the specification states about them.

    Pointers to peer records are modelled by the key under which the record
    sits in the view ([viewMap]): reading through the pointer is a lookup,
    writing through it is an insert at that key.  The live view and the timers
    are keyed by peer id, as the Go maps are. *)

From Stdlib Require Import NArith Lia List.
From stdpp Require Import base option list gmap strings fin_maps fin_sets.

Local Open Scope N_scope.

Abbreviation bytes := (list Byte.byte).

(** ** Errors ([errors.New] values of handlers.go and of the client) *)

Inductive error : Type :=
| errNoPeerInCtx
| errNoTLSInfo
| errNeighbourPeerNotFound
| errNotMyNeighbour
| errInvalidPeerInformation
| errInvalidMaskLength
| errAccAlreadyExists
| errDisabledRing
| errInvalidAccuser
| errInvalidSignature
| errInvalidSelfAccusation
| errInvalidEpoch
| errInvalidMask
| errOldNote
| errNoPeer
| errNilCert
| errSelfCert
| errNoCert
| errInvalidId
| errNoData
| errNoCaAddress
| errExternal (msg : string).

(** ** Protobuf messages (package gossip).

    A message pointer may be nil; the generated getters are nil-safe and
    return the zero value, which is what the [Get...] functions do on
    [None]. *)
Module gossip.

Record Signature := mkSignature { sigR : bytes; sigS : bytes }.

Definition GetR (s : option Signature) : bytes := from_option sigR [] s.
Definition GetS (s : option Signature) : bytes := from_option sigS [] s.

Record Note := mkNote {
  Note_Epoch : N;
  Note_Id : string;
  Note_Mask : bytes;
  Note_Signature : option Signature
}.

Definition Note_GetEpoch (m : option Note) : N := from_option Note_Epoch 0 m.
Definition Note_GetId (m : option Note) : string := from_option Note_Id "" m.
Definition Note_GetMask (m : option Note) : bytes := from_option Note_Mask [] m.
Definition Note_GetSignature (m : option Note) : option Signature :=
  m ≫= Note_Signature.

Record Accusation := mkAccusation {
  Acc_Epoch : N;
  Acc_Accuser : string;
  Acc_Accused : string;
  Acc_Mask : bytes;
  Acc_RingNum : N;
  Acc_Signature : option Signature
}.

Record Certificate := mkCertificate { Raw : bytes }.

Record State := mkState {
  OwnNote : option Note;
  ExistingHosts : option (gmap string N);
  State_ExternalGossip : option bytes
}.

Record StateResponse := mkStateResponse {
  Certificates : list Certificate;
  Notes : list Note;
  Accusations : list Accusation;
  ExternalGossip : bytes
}.

Record Msg := mkMsg { Content : bytes }.
Definition GetContent (m : option Msg) : bytes := from_option Content [] m.

Record MsgResponse := mkMsgResponse { MsgResponse_Content : bytes }.

Definition emptyResponse : StateResponse := mkStateResponse [] [] [] [].

Definition addCertificate (c : Certificate) (r : StateResponse) :=
  mkStateResponse (Certificates r ++ [c]) (Notes r) (Accusations r) (ExternalGossip r).
Definition addNote (n : Note) (r : StateResponse) :=
  mkStateResponse (Certificates r) (Notes r ++ [n]) (Accusations r) (ExternalGossip r).
Definition addAccusation (a : Accusation) (r : StateResponse) :=
  mkStateResponse (Certificates r) (Notes r) (Accusations r ++ [a]) (ExternalGossip r).
Definition setExternalGossip (b : bytes) (r : StateResponse) :=
  mkStateResponse (Certificates r) (Notes r) (Accusations r) b.

End gossip.

(** ** Peer records and the view (package discovery) *)
Module discovery.

(** The package discovery (its notes, accusations, peer records and view) is
    not among the sources.  Its records and methods are written down here
    from the specification (sections 3.2-3.6, 4.2, 4.3 and 4.7) and from the
    way handlers.go calls them. *)

(** Modelled from the spec: the type [discovery.Note] is missing; section 3.2
    gives its fields. *)
Record Note := mkNote {
  note_id : string;
  note_epoch : N;
  note_mask : bytes;
  note_r : bytes;
  note_s : bytes
}.

(** Modelled from the spec: [Note.Equal] is missing; section 4.3,
    evalAccusation step 3, [note.epoch == acc.epoch]. *)
Definition Note_Equal (n : Note) (epoch : N) : bool :=
  bool_decide (note_epoch n = epoch).

(** Modelled from the spec: [Note.IsMoreRecent] is missing.  By section 4.3,
    evalNote step 2, [evalNote] answers [errOldNote] ("Already had the same
    or a more recent note") exactly when [p.note.epoch >= note.epoch], and
    handlers.go returns that error when [!note.IsMoreRecent(epoch)]: the
    method holds when its argument is more recent than the note. *)
Definition Note_IsMoreRecent (n : Note) (epoch : N) : bool :=
  bool_decide (note_epoch n < epoch).

(** Modelled from the spec: [Note.Mask] is missing; the mask of section 3.2. *)
Definition Note_Mask (n : Note) : bytes := note_mask n.

(** Modelled from the spec: [Note.ToPbMsg] is missing; the wire form of
    section 6.1 with the fields of section 3.2. *)
Definition Note_ToPbMsg (n : Note) : gossip.Note :=
  gossip.mkNote (note_epoch n) (note_id n) (note_mask n)
                (Some (gossip.mkSignature (note_r n) (note_s n))).

(** Modelled from the spec: the type [discovery.Accusation] is missing;
    section 3.3 gives its fields. *)
Record Accusation := mkAccusation {
  acc_accused : string;
  acc_accuser : string;
  acc_epoch : N;
  acc_mask : bytes;
  acc_ringNum : N;
  acc_r : bytes;
  acc_s : bytes
}.

(** Modelled from the spec: [Accusation.Equal] is missing; section 4.3,
    evalAccusation step 2, "equal to this one (same accuser, same epoch)"
    for the given accused and ring. *)
Definition Accusation_Equal (a : Accusation)
    (accused accuser : string) (ringNum epoch : N) : bool :=
  bool_decide (acc_accused a = accused) && bool_decide (acc_accuser a = accuser)
  && bool_decide (acc_ringNum a = ringNum) && bool_decide (acc_epoch a = epoch).

(** Modelled from the spec: [Accusation.IsMoreRecent] is missing; section
    4.3, evalNote step 5, "remove every accusation [a] with
    [a.epoch < note.epoch]", which is the sense [Note.IsMoreRecent] has too. *)
Definition Accusation_IsMoreRecent (a : Accusation) (epoch : N) : bool :=
  bool_decide (acc_epoch a < epoch).

(** Modelled from the spec: [Accusation.ToPbMsg] is missing; the wire form
    of section 6.1 with the fields of section 3.3. *)
Definition Accusation_ToPbMsg (a : Accusation) : gossip.Accusation :=
  gossip.mkAccusation (acc_epoch a) (acc_accuser a) (acc_accused a)
                      (acc_mask a) (acc_ringNum a)
                      (Some (gossip.mkSignature (acc_r a) (acc_s a))).

(** Modelled from the spec: the type [discovery.Peer] is missing; section
    3.4, [{certificate, current_note?, accusations[ring_num → Accusation],
    ping_counter}], with the [Id] and [Addr] handlers.go reads. *)
Record Peer := mkPeer {
  Id : string;
  Addr : string;
  cert : bytes;
  note : option Note;
  accusations : gmap N Accusation;
  nPing : N
}.

(** Modelled from the spec: the readers [Peer.Note], [Peer.Certificate],
    [Peer.AllAccusations], [Peer.IsAccused] and [Peer.RingAccusation] are
    missing; they read the fields of section 3.4 (a peer is accused when it
    has any stored accusation). *)
Definition Peer_Note (p : Peer) : option Note := note p.
Definition Peer_Certificate (p : Peer) : bytes := cert p.

Definition Peer_AllAccusations (p : Peer) : list Accusation :=
  (map_to_list (accusations p)).*2.

Definition Peer_IsAccused (p : Peer) : bool :=
  bool_decide (accusations p ≠ ∅).

Definition Peer_RingAccusation (p : Peer) (ringNum : N) : option Accusation :=
  accusations p !! ringNum.

Definition setAccusations (accs : gmap N Accusation) (p : Peer) : Peer :=
  mkPeer (Id p) (Addr p) (cert p) (note p) accs (nPing p).

(** Modelled from the spec: [Peer.AddAccusation] is missing; section 4.3,
    evalAccusation step 7, "store the accusation", and section 3.3, at most
    one accusation per ring.  The Go method also returns an error value, for
    which the specification names no cause. *)
Definition Peer_AddAccusation (p : Peer) (accused accuser : string)
    (epoch : N) (mask : bytes) (ringNum : N) (r s : bytes)
    : Peer * option error :=
  (setAccusations
     (<[ringNum := mkAccusation accused accuser epoch mask ringNum r s]>
        (accusations p)) p,
   None).

(** Modelled from the spec: [Peer.RemoveAccusation] is missing; the
    accusation kept for [a]'s ring is removed (section 3.4). *)
Definition Peer_RemoveAccusation (p : Peer) (a : Accusation) : Peer :=
  setAccusations (delete (acc_ringNum a) (accusations p)) p.

(** Modelled from the spec: [Peer.AddNote] is missing; section 4.3, evalNote
    steps 4 and 5, "replace [p.note]". *)
Definition Peer_AddNote (p : Peer) (mask : bytes) (epoch : N) (r s : bytes) : Peer :=
  mkPeer (Id p) (Addr p) (cert p)
         (Some (mkNote (Id p) epoch mask r s)) (accusations p) (nPing p).

(** Modelled from the spec: [Peer.ResetPing] is missing; section 4.3,
    evalNote step 5, "reset ping counter". *)
Definition Peer_ResetPing (p : Peer) : Peer :=
  mkPeer (Id p) (Addr p) (cert p) (note p) (accusations p) 0.

(** Modelled from the spec: the timer entry is missing; section 4.7,
    [{peer_id, start_time, observed_note, accuser, deadline}], without the
    two wall-clock fields. *)
Record Timeout := mkTimeout {
  timeout_peer : string;
  timeout_observed : option Note;
  timeout_accuser : string
}.

(** Modelled from the spec: the type [discovery.View] is missing; section
    3.6, full view, live view and timers.  The live view holds pointers to
    the records of the full view, so it is a set of ids here. *)
Record View := mkView {
  viewMap : gmap string Peer;
  liveMap : gset string;
  timeoutMap : gmap string Timeout
}.

(** Modelled from the spec: the view methods [Peer], [Exists], [Full],
    [IsAlive], [AddLive], [HasTimer], [StartTimer], [DeleteTimeout] and
    [AddFull] are missing; section 4.2 lists them. *)
Definition View_Peer (v : View) (id : string) : option Peer := viewMap v !! id.
Definition View_Exists (v : View) (id : string) : bool :=
  bool_decide (is_Some (viewMap v !! id)).
Definition View_Full (v : View) : list Peer := (map_to_list (viewMap v)).*2.

Definition View_IsAlive (v : View) (id : string) : bool :=
  bool_decide (id ∈ liveMap v).
Definition View_AddLive (v : View) (p : Peer) : View :=
  mkView (viewMap v) ({[Id p]} ∪ liveMap v) (timeoutMap v).

Definition View_HasTimer (v : View) (id : string) : bool :=
  bool_decide (is_Some (timeoutMap v !! id)).
Definition View_StartTimer (v : View) (p : Peer) (observed : option Note)
    (accuser : Peer) : View :=
  mkView (viewMap v) (liveMap v)
         (<[Id p := mkTimeout (Id p) observed (Id accuser)]> (timeoutMap v)).
Definition View_DeleteTimeout (v : View) (id : string) : View :=
  mkView (viewMap v) (liveMap v) (delete id (timeoutMap v)).

(** A newly certified peer: no note, no accusations. *)
Definition View_AddFull (v : View) (id : string) (c : bytes) : View :=
  mkView (<[id := mkPeer id "" c None ∅ 0]> (viewMap v)) (liveMap v) (timeoutMap v).

(** Writing through a peer pointer obtained from [View_Peer v key]. *)
Definition storePeer (v : View) (key : string) (p : Peer) : View :=
  mkView (<[key := p]> (viewMap v)) (liveMap v) (timeoutMap v).

End discovery.

(** ** The node and its handlers (package core, handlers.go) *)
Module core.
Import discovery.

(** The fields of an x509 certificate the handlers read. *)
Record X509Certificate := mkX509 {
  SubjectKeyId : string;
  X509Raw : bytes
}.

(** What [validateCtx] inspects of a request context: the grpc peer, if
    any, and its authentication info, which is TLS info or something else. *)
Inductive AuthInfo : Type :=
| TLSInfo (PeerCertificates : list X509Certificate)
| OtherAuthInfo.

Record Context := mkContext { ctxPeer : option AuthInfo }.

Definition Handler : Type := bytes → bytes * option error.

Record Node := mkNode {
  self : Peer;
  view : View;
  localCert : X509Certificate;
  caCert : X509Certificate;
  gossipHandler : option Handler;
  msgHandler : option Handler;
  externalGossip : bytes
}.

Definition setView (v : View) (n : Node) : Node :=
  mkNode (self n) v (localCert n) (caCert n) (gossipHandler n) (msgHandler n)
         (externalGossip n).
Definition setSelf (p : Peer) (n : Node) : Node :=
  mkNode p (view n) (localCert n) (caCert n) (gossipHandler n) (msgHandler n)
         (externalGossip n).

Definition getGossipHandler (n : Node) : option Handler := gossipHandler n.
Definition getMsgHandler (n : Node) : option Handler := msgHandler n.

(** A peer pointer is either [n.self] or the record stored in the view
    under some key. *)
Inductive PeerRef : Type :=
| SelfPeer
| ViewPeer (key : string).

Definition deref (n : Node) (r : PeerRef) : option Peer :=
  match r with
  | SelfPeer => Some (self n)
  | ViewPeer key => View_Peer (view n) key
  end.

Definition assign (n : Node) (r : PeerRef) (p : Peer) : Node :=
  match r with
  | SelfPeer => setSelf p n
  | ViewPeer key => setView (storePeer (view n) key p) n
  end.

(** What handlers.go calls but does not define: signature checks
    (crypto), the ring queries and mask rules of the view, and the
    protocol strategy's [Rebuttal].  They are functions of their
    arguments and of the node they are asked about. *)
Class Env := mkEnv {
  checkNoteSignature : option gossip.Note → Peer → bool;
  checkAccusationSignature : gossip.Accusation → Peer → bool;
  checkCertificateSignature : X509Certificate → X509Certificate → option error;
  ShouldBeNeighbour : Node → string → bool;
  FindNeighbours : Node → string → list Peer;
  ValidAccuser : Node → Peer → Peer → N → bool;
  ShouldRebuttal : Node → N → N → bool;
  IsRingDisabled : Node → bytes → N → bool;
  ValidMask : Node → bytes → bool;
  Rebuttal : Node → Node
}.

Definition validateCtx (ctx : Context) : X509Certificate + error :=
  match ctxPeer ctx with
  | None => inr errNoPeerInCtx
  | Some OtherAuthInfo => inr errNoTLSInfo
  | Some (TLSInfo certs) =>
      match certs with
      | [] => inr errNoCert
      | c :: _ => inl c
      end
  end.

Section Handlers.
Context {env : Env}.

Definition Messenger (n : Node) (ctx : Context) (args : option gossip.Msg)
    : option gossip.MsgResponse * option error :=
  match validateCtx ctx with
  | inr err => (None, Some err)
  | inl _ =>
      match getMsgHandler n with
      | Some handler =>
          match handler (gossip.GetContent args) with
          | (_, Some err) => (None, Some err)
          | (replyContent, None) => (Some (gossip.mkMsgResponse replyContent), None)
          end
      | None => (Some (gossip.mkMsgResponse []), None)
      end
  end.

Definition evalCertificate (n : Node) (cert : option X509Certificate)
    : Node * option error :=
  match cert with
  | None => (n, Some errNilCert)
  | Some cert =>
      let id := SubjectKeyId cert in
      if decide (Id (self n) = id) then (n, Some errSelfCert)
      else if decide (String.length id ≠ 32%nat) then (n, Some errInvalidId)
      else match checkCertificateSignature cert (caCert n) with
           | Some err => (n, Some err)
           | None =>
               if negb (View_Exists (view n) id)
               then (setView (View_AddFull (view n) id (X509Raw cert)) n, None)
               else (n, None)
           end
  end.

(** The rebuttal loop of [evalNote]: every accusation the incoming epoch
    is more recent than is removed from the peer. *)
Definition removeRebutted (epoch : N) (p : Peer) (accs : list Accusation) : Peer :=
  foldl (λ p a, if Accusation_IsMoreRecent a epoch
                then Peer_RemoveAccusation p a else p) p accs.

Definition evalNote (n : Node) (gossipNote : option gossip.Note)
    : Node * option error :=
  let epoch := gossip.Note_GetEpoch gossipNote in
  let mask := gossip.Note_GetMask gossipNote in
  let key := gossip.Note_GetId gossipNote in
  match View_Peer (view n) key with
  | None => (n, Some errNoPeer)
  | Some p =>
      let note := Peer_Note p in
      let newer := match note with
                   | None => true
                   | Some note => Note_IsMoreRecent note epoch
                   end in
      if negb newer then (n, Some errOldNote)
      else if negb (ValidMask n mask) then (n, Some errInvalidMask)
      else
        let accusations := Peer_AllAccusations p in
        if decide (length accusations = 0%nat) then
          if newer then
            if negb (checkNoteSignature gossipNote p)
            then (n, Some errInvalidSignature)
            else
              let sign := gossip.Note_GetSignature gossipNote in
              let p1 := Peer_AddNote p mask epoch (gossip.GetR sign) (gossip.GetS sign) in
              let v1 := storePeer (view n) key p1 in
              let v2 := if negb (View_IsAlive v1 (Id p1))
                        then View_AddLive v1 p1 else v1 in
              (setView v2 n, None)
          else (n, None)
        else
          if negb (checkNoteSignature gossipNote p)
          then (n, Some errInvalidSignature)
          else
            let p1 := removeRebutted epoch p accusations in
            let p2 := if newer
                      then let sign := gossip.Note_GetSignature gossipNote in
                           Peer_AddNote p1 mask epoch (gossip.GetR sign) (gossip.GetS sign)
                      else p1 in
            if negb (Peer_IsAccused p2) then
              let p3 := Peer_ResetPing p2 in
              let v1 := storePeer (view n) key p3 in
              let v2 := if View_HasTimer v1 (Id p3)
                        then View_DeleteTimeout v1 (Id p3) else v1 in
              let v3 := if negb (View_IsAlive v2 (Id p3))
                        then View_AddLive v2 p3 else v2 in
              (setView v3 n, None)
            else (setView (storePeer (view n) key p2) n, None)
  end.

(** [p] is the record the pointer [pref] refers to. *)
Definition evalAccusation (n : Node) (a : gossip.Accusation)
    (accuserPeer : Peer) (pref : PeerRef) (p : Peer) : Node * option error :=
  let sign := gossip.Acc_Signature a in
  let epoch := gossip.Acc_Epoch a in
  let ringNum := gossip.Acc_RingNum a in
  if decide (Id (self n) = Id p) then
    if ShouldRebuttal n epoch ringNum then (Rebuttal n, None)
    else (n, Some errInvalidSelfAccusation)
  else
    let acc := Peer_RingAccusation p ringNum in
    if match acc with
       | Some acc => Accusation_Equal acc (Id p) (Id accuserPeer) ringNum epoch
       | None => false
       end
    then
      let live := View_IsAlive (view n) (Id p) in
      let v := if negb (View_HasTimer (view n) (Id p)) && live
               then View_StartTimer (view n) p (Peer_Note p) accuserPeer
               else view n in
      (setView v n, Some errAccAlreadyExists)
    else
      match Peer_Note p with
      | Some note =>
          if Note_Equal note epoch then
            let mask := Note_Mask note in
            if IsRingDisabled n mask ringNum then (n, Some errDisabledRing)
            else if negb (ValidAccuser n p accuserPeer ringNum)
            then (n, Some errInvalidAccuser)
            else if negb (checkAccusationSignature a accuserPeer)
            then (n, Some errInvalidSignature)
            else
              match Peer_AddAccusation p (Id p) (Id accuserPeer) epoch mask ringNum
                      (gossip.GetR sign) (gossip.GetS sign) with
              | (_, Some err) => (n, Some err)
              | (p1, None) =>
                  let n1 := assign n pref p1 in
                  let live := View_IsAlive (view n1) (Id p1) in
                  let v := if negb (View_HasTimer (view n1) (Id p1)) && live
                           then View_StartTimer (view n1) p1 (Peer_Note p1) accuserPeer
                           else view n1 in
                  (setView v n1, None)
              end
          else (n, Some errInvalidEpoch)
      | None => (n, Some errInvalidEpoch)
      end.

Definition mergeViews_peer (given : gmap string N)
    (reply : gossip.StateResponse) (p : Peer) : gossip.StateResponse :=
  let reply1 :=
    match given !! Id p with
    | None =>
        let r := gossip.addCertificate (gossip.mkCertificate (Peer_Certificate p)) reply in
        match Peer_Note p with
        | Some note => gossip.addNote (Note_ToPbMsg note) r
        | None => r
        end
    | Some e =>
        match Peer_Note p with
        | Some note =>
            if Note_IsMoreRecent note e
            then gossip.addNote (Note_ToPbMsg note) reply else reply
        | None => reply
        end
    end in
  foldl (λ r a, gossip.addAccusation (Accusation_ToPbMsg a) r)
        reply1 (Peer_AllAccusations p).

(** [None] is the nil dereference of [n.self.Note()] when the local peer
    has no note. *)
Definition mergeViews (n : Node) (given : gmap string N)
    (reply : gossip.StateResponse) : option gossip.StateResponse :=
  let reply1 := foldl (mergeViews_peer given) reply (View_Full (view n)) in
  localNote ← Peer_Note (self n);
  if match given !! Id (self n) with
     | None => true
     | Some epoch => Note_IsMoreRecent localNote epoch
     end
  then Some (gossip.addNote (Note_ToPbMsg localNote) reply1)
  else Some reply1.

Definition mergeNotes_one (n : Node) (newNote : gossip.Note) : Node :=
  if decide (Id (self n) = gossip.Note_GetId (Some newNote)) then n
  else (evalNote n (Some newNote)).1.

Definition mergeNotes (n : Node) (notes : list gossip.Note) : Node :=
  foldl mergeNotes_one n notes.

(** The first half of the loop body of [mergeAccusations]: the accuser
    and the accused the accusation resolves to, or [None] when the
    iteration ends with [continue]. *)
Definition mergeAccusations_resolve (n : Node) (acc : gossip.Accusation)
    : option (Peer * (PeerRef * Peer)) :=
  let accId := gossip.Acc_Accused acc in
  let accuserId := gossip.Acc_Accuser acc in
  let accuser := if decide (accuserId = Id (self n)) then Some (self n)
                 else View_Peer (view n) accuserId in
  match accuser with
  | None => None
  | Some accuser =>
      let accused :=
        if decide (accId = Id (self n)) then Some (SelfPeer, self n)
        else match View_Peer (view n) accId with
             | None => None
             | Some p => match Peer_Note p with
                         | None => None
                         | Some _ => Some (ViewPeer accId, p)
                         end
             end in
      match accused with
      | None => None
      | Some accused => Some (accuser, accused)
      end
  end.

Definition mergeAccusations_one (n : Node) (acc : gossip.Accusation) : Node :=
  match mergeAccusations_resolve n acc with
  | None => n
  | Some (accuser, (pref, p)) => (evalAccusation n acc accuser pref p).1
  end.

Definition mergeAccusations (n : Node) (accusations : list gossip.Accusation) : Node :=
  foldl mergeAccusations_one n accusations.

Definition GetOwnNote (args : option gossip.State) : option gossip.Note :=
  args ≫= gossip.OwnNote.
Definition GetExistingHosts (args : option gossip.State) : option (gmap string N) :=
  args ≫= gossip.ExistingHosts.
Definition GetExternalGossip (args : option gossip.State) : option bytes :=
  args ≫= gossip.State_ExternalGossip.

(** The result is [None] when the handler hits a nil dereference; otherwise
    the node afterwards and the pair the Go function returns. *)
Definition Spread (n : Node) (ctx : Context) (args : option gossip.State)
    : option (Node * (option gossip.StateResponse * option error)) :=
  match validateCtx ctx with
  | inr err => Some (n, (None, Some err))
  | inl cert =>
      let reply := gossip.emptyResponse in
      let remoteId := SubjectKeyId cert in
      let peer := View_Peer (view n) remoteId in
      if ShouldBeNeighbour n remoteId then
        match evalCertificate n (Some cert) with
        | (n1, Some err) => Some (n1, (None, Some err))
        | (n1, None) =>
            let n2 := (evalNote n1 (GetOwnNote args)).1 in
            let extGossip := GetExternalGossip args in
            reply1 ← match GetExistingHosts args with
                     | Some hosts => mergeViews n2 hosts reply
                     | None => Some reply
                     end;
            let reply2 :=
              match getGossipHandler n2, extGossip with
              | Some handler, Some g => gossip.setExternalGossip (handler g).1 reply1
              | _, _ => reply1
              end in
            Some (n2, (Some reply2, None))
        end
      else
        match peer with
        | Some peer0 =>
            if negb (Peer_IsAccused peer0) then
              Some ((evalNote n (GetOwnNote args)).1, (None, Some errNotMyNeighbour))
            else
              let n1 := (evalNote n (GetOwnNote args)).1 in
              peer1 ← View_Peer (view n1) remoteId;
              Some (n1,
                    (Some (foldl (λ r a, gossip.addAccusation (Accusation_ToPbMsg a) r)
                                 reply (Peer_AllAccusations peer1)),
                     None))
        | None =>
            match evalCertificate n (Some cert) with
            | (n1, Some err) => Some (n1, (None, Some err))
            | (n1, None) =>
                let n2 := (evalNote n1 (GetOwnNote args)).1 in
                let reply1 :=
                  gossip.addCertificate (gossip.mkCertificate (X509Raw (localCert n2))) reply in
                selfNote ← Peer_Note (self n2);
                let reply2 := gossip.addNote (Note_ToPbMsg selfNote) reply1 in
                Some (n2,
                      (Some (foldl (λ r p,
                               let r1 := gossip.addCertificate
                                           (gossip.mkCertificate (Peer_Certificate p)) r in
                               match Peer_Note p with
                               | Some note => gossip.addNote (Note_ToPbMsg note) r1
                               | None => r1
                               end) reply2 (FindNeighbours n2 remoteId)),
                       None))
            end
        end
  end.

(** [parse] is [x509.ParseCertificate]; a certificate that does not parse is
    skipped, as is one [evalCertificate] turns away. *)
Definition mergeCertificates_one (parse : bytes → X509Certificate + error)
    (n : Node) (b : gossip.Certificate) : Node :=
  match parse (gossip.Raw b) with
  | inr _ => n
  | inl cert => (evalCertificate n (Some cert)).1
  end.

Definition mergeCertificates (parse : bytes → X509Certificate + error)
    (n : Node) (certs : list gossip.Certificate) : Node :=
  foldl (mergeCertificates_one parse) n certs.

End Handlers.

(** Modelled from the spec: [Node.SetExternalGossipContent] is not among the
    sources; section 6.4, "replaces the payload piggy-backed on outgoing
    Spread calls". *)
Definition SetExternalGossipContent (n : Node) (data : bytes) : Node :=
  mkNode (self n) (view n) (localCert n) (caCert n) (gossipHandler n) (msgHandler n)
         data.

End core.

(** ** The client facade (package ifrit) *)
Module ifrit.

Record Client := mkClient { node : core.Node }.

Definition SetGossipContent (c : Client) (data : bytes) : Client * option error :=
  if decide (length data ≤ 0)%nat then (c, Some errNoData)
  else (mkClient (core.SetExternalGossipContent (node c) data), None).

End ifrit.

(** ** The monitor of the [correct] strategy (package node, lib/node/ping.go) *)
Module node.

Record signature := mkSignature { r : bytes; s : bytes }.

Record peerId := mkPeerId { id : bytes }.

Record note := mkNote {
  note_peerId : peerId;
  epoch : N;
  mask : bytes;
  note_signature : option signature
}.

(** The struct literal in [Monitor] sets [peerId], [epoch], [accuser] and
    [signature]; the test helpers also read [mask].  A field the literal
    leaves out holds Go's zero value (the nil slice for [mask]). *)
Record accusation := mkAccusation {
  acc_peerId : peerId;
  acc_epoch : N;
  acc_accuser : peerId;
  acc_mask : bytes;
  acc_signature : option signature
}.

Record peer := mkPeer {
  peer_peerId : peerId;
  key : string;
  addr : string;
  recentNote : option note;
  peer_accusation : option accusation
}.

Definition getNote (p : peer) : option note := recentNote p.
Definition getAccusation (p : peer) : option accusation := peer_accusation p.

Record timeout := mkTimeout {
  observed : note;
  lastNote : option note;
  timeout_addr : string
}.

(** What [ring.getRingSucc] hands back: the successor of the local node on
    that ring, or an error. *)
Record ringId := mkRingId { ring_addr : string; peerKey : string }.

Record ring := mkRing {
  ringNum : N;
  getRingSucc : ringId + error
}.

Record Node := mkNode {
  node_peerId : peerId;
  localAddr : string;
  viewMap : gmap string peer;
  liveMap : gset string;
  timeoutMap : gmap string timeout;
  ringMap : gmap N ring
}.

(** Modelled from the spec: the helpers [getViewPeer], [timerExist] and
    [startTimer] of this package are missing; they read and write the maps
    of the node as section 3.6 describes the view and its timers. *)
Definition getViewPeer (n : Node) (k : string) : option peer := viewMap n !! k.
Definition timerExist (n : Node) (k : string) : bool :=
  bool_decide (is_Some (timeoutMap n !! k)).
Definition startTimer (n : Node) (k : string) (newNote : note)
    (last : option note) (a : string) : Node :=
  mkNode (node_peerId n) (localAddr n) (viewMap n) (liveMap n)
         (<[k := mkTimeout newNote last a]> (timeoutMap n)) (ringMap n).
Definition storePeer (n : Node) (k : string) (p : peer) : Node :=
  mkNode (node_peerId n) (localAddr n) (<[k := p]> (viewMap n)) (liveMap n)
         (timeoutMap n) (ringMap n).

(** uint64 addition. *)
Definition add64 (a b : N) : N := (a + b) mod 2 ^ 64.

(** What ping.go calls but does not define: the monitor RPC of the client
    (here per ring and address, [Some] being the error), signing of the
    printed accusation message, and the error [peer.setAccusation] may
    return. *)
Class Env := mkEnv {
  clientMonitor : N → string → option error;
  signContent : N → bytes → bytes → signature + error;
  setAccusationErr : peer → accusation → option error
}.

Section Monitor.
Context {env : Env}.

Definition setAccusation (p : peer) (a : accusation) : peer + error :=
  match setAccusationErr p a with
  | Some err => inr err
  | None => inl (mkPeer (peer_peerId p) (key p) (addr p) (recentNote p) (Some a))
  end.

(** One iteration of the loop over [n.ringMap]; the boolean is [true]
    when the iteration leaves [Monitor] through [return]. *)
Definition monitorRing (n : Node) (rg : ring) : Node * bool :=
  match getRingSucc rg with
  | inr _ => (n, false)
  | inl succ =>
      if decide (ring_addr succ = localAddr n) then (n, false)
      else
        match clientMonitor (ringNum rg) (ring_addr succ) with
        | None => (n, false)
        | Some _ =>
            match getViewPeer n (peerKey succ) with
            | None => (n, false)
            | Some p =>
                match getNote p with
                | None => (n, true)
                | Some peerNote =>
                    match signContent (add64 (epoch peerNote) 1)
                            (id (node_peerId n)) (id (peer_peerId p)) with
                    | inr _ => (n, true)
                    | inl sig =>
                        let a := mkAccusation (peer_peerId p)
                                   (add64 (epoch peerNote) 1)
                                   (node_peerId n) [] (Some sig) in
                        match setAccusation p a with
                        | inr _ => (n, true)
                        | inl p1 =>
                            let n1 := storePeer n (peerKey succ) p1 in
                            if negb (timerExist n1 (key p1))
                            then (startTimer n1 (key p1) peerNote None (addr p1), false)
                            else (n1, false)
                        end
                    end
                end
            end
        end
  end.

Fixpoint MonitorOver (rings : list ring) (n : Node) : Node :=
  match rings with
  | [] => n
  | rg :: rest =>
      let '(n1, stop) := monitorRing n rg in
      if stop then n1 else MonitorOver rest n1
  end.


End Monitor.

(** *** The pinger *)

Inductive pingError : Type :=
| errInvalidPongSignature
| errDead
| errPing (e : error).

Record Pong := mkPong { Pong_Nonce : bytes; Pong_Signature : option signature }.

Definition GetR (sg : option signature) : bytes := from_option r [] sg.
Definition GetS (sg : option signature) : bytes := from_option s [] sg.

(** Modelled from the spec: the fields of a peer that [ping] reads and
    writes; the type declaration and the methods [getNPing],
    [incrementPing] and [resetPing] are missing.  Section 3.4 gives the
    peer a ping counter, section 4.6 the limit of three consecutive
    failures. *)
Record pingDest := mkPingDest {
  pingAddr : string;
  publicKey : bytes;
  nPing : N
}.

Definition getNPing (d : pingDest) : N := nPing d.
Definition incrementPing (d : pingDest) : pingDest :=
  mkPingDest (pingAddr d) (publicKey d) (nPing d + 1).
Definition resetPing (d : pingDest) : pingDest :=
  mkPingDest (pingAddr d) (publicKey d) 0.

(** What one call of [ping] meets: the nonce drawn, the protobuf codec, the
    transport, signature validation and the loss statistics kept by
    [setAvgLoss]. *)
Record PingIO := mkPingIO {
  genNonce : bytes;
  marshalPing : bytes → bytes + error;
  Send : string → bytes → bytes + error;
  unmarshalPong : bytes → Pong + error;
  validateSignature : bytes → bytes → bytes → bytes → bool + error;
  setAvgLoss : pingDest → pingDest
}.

Definition ping (io : PingIO) (dest : pingDest) : pingDest * option pingError :=
  if decide (3 ≤ getNPing dest) then (dest, Some errDead)
  else
    match marshalPing io (genNonce io) with
    | inr err => (dest, Some (errPing err))
    | inl data =>
        let dest1 := incrementPing dest in
        match Send io (pingAddr dest1) data with
        | inr err => (dest1, Some (errPing err))
        | inl respBytes =>
            match unmarshalPong io respBytes with
            | inr err => (dest1, Some (errPing err))
            | inl resp =>
                let sign := Pong_Signature resp in
                match validateSignature io (GetR sign) (GetS sign) (Pong_Nonce resp)
                        (publicKey dest1) with
                | inr err => (dest1, Some (errPing err))
                | inl valid =>
                    if negb valid then (dest1, Some errInvalidPongSignature)
                    else (resetPing (setAvgLoss io dest1), None)
                end
            end
        end
    end.

(** A run of pings against one peer, each with what it meets; the errors
    come back in order. *)
Fixpoint pings (ios : list PingIO) (dest : pingDest)
    : pingDest * list (option pingError) :=
  match ios with
  | [] => (dest, [])
  | io :: rest =>
      let '(dest1, res) := ping io dest in
      let '(dest2, ress) := pings rest dest1 in
      (dest2, res :: ress)
  end.

(** [sign] is [signContent] under the pinger's private key, [marshal] is
    [proto.Marshal] on the pong. *)
Definition signPong (sign : bytes → signature + error)
    (marshal : Pong → bytes + error) (data : bytes) : bytes + error :=
  match sign data with
  | inr err => inr err
  | inl sg =>
      match marshal (mkPong data (Some sg)) with
      | inr err => inr err
      | inl bs => inl bs
      end
  end.

(** *** The other strategy functions of ping.go *)

(** The messages of the protobuf package this code gossips. *)
Record PbNote := mkPbNote {
  PbNote_Epoch : N;
  PbNote_Id : bytes;
  PbNote_Signature : option signature
}.

Record PbAccusation := mkPbAccusation {
  PbAcc_Epoch : N;
  PbAcc_Accuser : bytes;
  PbAcc_Accused : bytes;
  PbAcc_Signature : option signature
}.

Record GossipMsg := mkGossipMsg {
  Msg_Notes : list PbNote;
  Msg_Accusations : list PbAccusation
}.

(** Modelled from the spec: [Node.getView] is missing; the peers of the full
    view (section 3.6), in the order the map yields them. *)
Definition getView (n : Node) : list peer := (map_to_list (viewMap n)).*2.

Section Strategies.
Context {env : Env}.



End Strategies.

(** The accusation loop of [createFalseAccusations] over the peers still to
    visit; [acc] is [msg.Accusations] so far. *)
Fixpoint falseAccusations (signAcc : PbAccusation → signature + error)
    (me : bytes) (peers : list peer) (acc : list PbAccusation)
    : list PbAccusation + error :=
  match peers with
  | [] => inl acc
  | p :: rest =>
      match getNote p with
      | None => falseAccusations signAcc me rest acc
      | Some peerNote =>
          let a := mkPbAccusation (add64 (epoch peerNote) 1) me
                     (id (note_peerId peerNote)) None in
          match signAcc a with
          | inr err => inr err
          | inl sg =>
              falseAccusations signAcc me rest
                (acc ++ [mkPbAccusation (PbAcc_Epoch a) (PbAcc_Accuser a)
                           (PbAcc_Accused a) (Some sg)])
          end
      end
  end.

(** [peers] is what [n.getView()] returned, [epoch] what [n.getEpoch()]
    returned; the two signers sign the printed messages. *)
Definition createFalseAccusationsOver (signAcc : PbAccusation → signature + error)
    (signNote : PbNote → signature + error) (n : Node) (peers : list peer)
    (epoch : N) : GossipMsg + error :=
  match falseAccusations signAcc (id (node_peerId n)) peers [] with
  | inr err => inr err
  | inl accs =>
      let noteMsg := mkPbNote epoch (id (node_peerId n)) None in
      match signNote noteMsg with
      | inr err => inr err
      | inl sg =>
          inl (mkGossipMsg [mkPbNote (PbNote_Epoch noteMsg) (PbNote_Id noteMsg) (Some sg)]
                           accs)
      end
  end.

Definition createFalseAccusations (signAcc : PbAccusation → signature + error)
    (signNote : PbNote → signature + error) (n : Node) (epoch : N)
    : GossipMsg + error :=
  createFalseAccusationsOver signAcc signNote n (getView n) epoch.

(** [correct.Rebuttal]: [neighbours] is what [n.getNeighbours()] returned and
    [epoch] what [n.getEpoch()] returned; the result lists the calls of
    [n.client.Gossip] in order (their errors are only logged). *)
Definition Rebuttal (signNote : PbNote → signature + error) (n : Node)
    (neighbours : list string) (epoch : N) : list (string * GossipMsg) :=
  let noteMsg := mkPbNote epoch (id (node_peerId n)) None in
  match signNote noteMsg with
  | inr _ => []
  | inl sg =>
      let msg := mkGossipMsg [mkPbNote (PbNote_Epoch noteMsg) (PbNote_Id noteMsg) (Some sg)]
                   [] in
      foldl (λ sent a, if decide (a = localAddr n) then sent else sent ++ [(a, msg)])
            [] neighbours
  end.

End node.

(** ** Concrete nodes and messages used to run the handlers *)
Module examples.
Import discovery core.

(** An environment in which every signature verifies, every mask is valid,
    no ring is disabled, every accuser is the predecessor it claims to be
    and nobody is a gossip neighbour. *)
Definition trusting : Env :=
  mkEnv (λ _ _, true) (λ _ _, true) (λ _ _, None) (λ _ _, false) (λ _ _, [])
        (λ _ _ _ _, true) (λ _ _ _, false) (λ _ _ _, false) (λ _ _, true) (λ n, n).

Definition ones : bytes := [Byte.x01; Byte.x01; Byte.x01].

Definition peerOf (id : string) (epoch : N) (accs : gmap N Accusation) : Peer :=
  mkPeer id "" [] (Some (mkNote id epoch ones [] [])) accs 0.

Definition nodeOf (me : Peer) (full : gmap string Peer) (live : gset string)
    (timers : gmap string Timeout) : Node :=
  mkNode me (mkView full live timers) (mkX509 (Id me) []) (mkX509 "ca" [])
         None None [].

Definition selfPeer : Peer := peerOf "self" 7 ∅.
Definition peerQ : Peer := peerOf "q" 1 ∅.

(** "p" was accused by "q" on ring 0 at epoch 2 while its stored note has
    epoch 1; the timer is running and "p" is not in the live view. *)
Definition accP2 : Accusation := mkAccusation "p" "q" 2 ones 0 [] [].
Definition accusedNode : Node :=
  nodeOf selfPeer
         {[ "p" := peerOf "p" 1 {[ 0 := accP2 ]}; "q" := peerQ ]}
         {[ "q" ]}
         {[ "p" := mkTimeout "p" (Some (mkNote "p" 1 ones [] [])) "q" ]}.
Definition noteP (epoch : N) : gossip.Note := gossip.mkNote epoch "p" ones None.

(** "p" and "q" are live, nobody is accused. *)
Definition quietNode : Node :=
  nodeOf selfPeer {[ "p" := peerOf "p" 1 ∅; "q" := peerQ ]} {[ "p"; "q" ]} ∅.
Definition pbAccP (epoch : N) : gossip.Accusation :=
  gossip.mkAccusation epoch "q" "p" ones 0 None.

(** "p" holds a note of epoch 5, the local peer one of epoch 7; the
    requester has recorded epoch 3 for "p" and epoch 2 for the local peer
    ([behind]), or epoch 9 for both ([ahead]). *)
Definition fresherNode : Node :=
  nodeOf selfPeer {[ "p" := peerOf "p" 5 ∅ ]} {[ "p" ]} ∅.
Definition behind : gmap string N := {[ "p" := 3; "self" := 2 ]}.
Definition ahead : gmap string N := {[ "p" := 9; "self" := 9 ]}.

(** The old monitor: every ping times out, signing succeeds, storing an
    accusation never fails. *)
Definition unreachable : node.Env :=
  node.mkEnv (λ _ _, Some (errExternal "timeout"))
             (λ _ _ _, inl (node.mkSignature [] []))
             (λ _ _, None).

Definition idS : node.peerId := node.mkPeerId [Byte.x73].
Definition noteS : node.note := node.mkNote idS 1 ones None.
Definition monitorNode : node.Node :=
  node.mkNode (node.mkPeerId [Byte.x6d]) "me:1"
              {[ "s" := node.mkPeer idS "s" "s:1" (Some noteS) None ]}
              {[ "s" ]} ∅
              {[ 0 := node.mkRing 0 (inl (node.mkRingId "s:1" "s")) ]}.

(** "p" is known with a note of epoch 1, but is not in the live view. *)
Definition knownNode : Node :=
  nodeOf selfPeer {[ "p" := peerOf "p" 1 ∅ ]} ∅ ∅.

(** "p" was accused by "q" on ring 0 at the epoch of its stored note, 2; the
    timer is running and "p" is still in the live view. *)
Definition accP : Accusation := mkAccusation "p" "q" 2 ones 0 [] [].
Definition suspectNode : Node :=
  nodeOf selfPeer
         {[ "p" := peerOf "p" 2 {[ 0 := accP ]}; "q" := peerQ ]}
         {[ "p"; "q" ]}
         {[ "p" := mkTimeout "p" (Some (mkNote "p" 2 ones [] [])) "q" ]}.

(** A certificate whose id has the 32 bytes a SHA-256 key id has. *)
Definition id32 : string := "0123456789abcdef0123456789abcdef".
Definition cert32 : X509Certificate := mkX509 id32 [Byte.x01].

End examples.

(** ** Predicates the properties are stated with *)

(** Every accusation of the peer sits under the number of its own ring. *)
Definition ring_keyed (p : discovery.Peer) : Prop :=
  ∀ r a, discovery.accusations p !! r = Some a → discovery.acc_ringNum a = r.

(** What one pass of the old monitor may do to a peer record: nothing, or
    set its accusation to one built from the peer's current note. *)
Definition monitored (me : node.peerId) (p p' : node.peer) : Prop :=
  p' = p ∨
  ∃ nt sig,
    node.recentNote p = Some nt ∧
    p' = node.mkPeer (node.peer_peerId p) (node.key p) (node.addr p) (node.recentNote p)
           (Some (node.mkAccusation (node.peer_peerId p) (node.add64 (node.epoch nt) 1)
                    me [] (Some sig))).

(** How the records two nodes keep under one key compare. *)
Definition monitored_at (me : node.peerId) (o o' : option node.peer) : Prop :=
  match o, o' with
  | Some p, Some p' => monitored me p p'
  | None, None => True
  | _, _ => False
  end.

(** Every record of the full view sits under its own id, and the live view
    names only peers of the full view. *)
Definition keys_are_ids (v : discovery.View) : Prop :=
  ∀ k p, discovery.viewMap v !! k = Some p → discovery.Id p = k.

Definition live_in_full (v : discovery.View) : Prop :=
  ∀ i, i ∈ discovery.liveMap v → is_Some (discovery.viewMap v !! i).

(** Every stored accusation sits under its own ring, names the peer that
    holds it, and carries an epoch the peer's note has reached. *)
Definition accusations_wf (p : discovery.Peer) : Prop :=
  ∀ r a, discovery.accusations p !! r = Some a →
    discovery.acc_ringNum a = r ∧ discovery.acc_accused a = discovery.Id p ∧
    ∃ nt, discovery.note p = Some nt ∧
          (discovery.acc_epoch a ≤ discovery.note_epoch nt)%N.

Definition view_accusations_wf (v : discovery.View) : Prop :=
  ∀ k p, discovery.viewMap v !! k = Some p → accusations_wf p.

(** A live peer that is accused has a timer running. *)
Definition live_accused_timed (v : discovery.View) : Prop :=
  ∀ k p, discovery.viewMap v !! k = Some p →
    discovery.Id p ∈ discovery.liveMap v →
    discovery.accusations p ≠ ∅ →
    is_Some (discovery.timeoutMap v !! discovery.Id p).

(** The note epoch of a record, when it has a note. *)
Definition epoch_of (p : discovery.Peer) : option N :=
  discovery.note_epoch <$> discovery.note p.

(** [o'] is at least as recent as [o]: a note that was there is still there,
    with an epoch that has not gone down. *)
Definition epoch_le (o o' : option N) : Prop :=
  match o with
  | None => True
  | Some e => ∃ e', o' = Some e' ∧ (e ≤ e')%N
  end.

(** [p'] is [p] moved forward: the same peer, with a note at least as recent
    and no accusation [p] did not have. *)
Definition peer_advanced (p p' : discovery.Peer) : Prop :=
  discovery.Id p' = discovery.Id p ∧ discovery.Addr p' = discovery.Addr p ∧
  discovery.cert p' = discovery.cert p ∧
  epoch_le (epoch_of p) (epoch_of p') ∧
  discovery.accusations p' ⊆ discovery.accusations p.

(** Every record of [v] is still in [v'], moved forward. *)
Definition records_advanced (v v' : discovery.View) : Prop :=
  ∀ k p, discovery.viewMap v !! k = Some p →
    ∃ p', discovery.viewMap v' !! k = Some p' ∧ peer_advanced p p'.

(** The invariants of a view the handlers keep. *)
Definition view_inv (v : discovery.View) : Prop :=
  keys_are_ids v ∧ live_in_full v ∧ view_accusations_wf v ∧ live_accused_timed v.

(** What [mergeViews] owes the requester for one peer: the certificate when
    the requester does not know the peer, and the note when the requester
    does not know the peer or [IsMoreRecent] holds of the epoch it recorded. *)
Definition certsFor (given : gmap string N) (p : discovery.Peer)
    : list gossip.Certificate :=
  match given !! discovery.Id p with
  | None => [gossip.mkCertificate (discovery.Peer_Certificate p)]
  | Some _ => []
  end.

Definition notesFor (given : gmap string N) (p : discovery.Peer) : list gossip.Note :=
  match discovery.Peer_Note p with
  | None => []
  | Some nt =>
      match given !! discovery.Id p with
      | None => [discovery.Note_ToPbMsg nt]
      | Some e => if discovery.Note_IsMoreRecent nt e
                  then [discovery.Note_ToPbMsg nt] else []
      end
  end.

Definition accusationsFor (p : discovery.Peer) : list gossip.Accusation :=
  discovery.Accusation_ToPbMsg <$> discovery.Peer_AllAccusations p.

(** [v'] differs from [v] at most in accusations and in timers that were
    opened: the same peers with the same notes, the same live view, and every
    timer of [v] still there. *)
Definition accused_only (v v' : discovery.View) : Prop :=
  discovery.liveMap v' = discovery.liveMap v ∧
  discovery.timeoutMap v ⊆ discovery.timeoutMap v' ∧
  dom (discovery.viewMap v') = dom (discovery.viewMap v) ∧
  ∀ k p, discovery.viewMap v !! k = Some p →
    ∃ p', discovery.viewMap v' !! k = Some p' ∧
          discovery.Id p' = discovery.Id p ∧ discovery.Addr p' = discovery.Addr p ∧
          discovery.cert p' = discovery.cert p ∧ discovery.note p' = discovery.note p ∧
          discovery.nPing p' = discovery.nPing p.

(** [n'] is [n] moved forward, as note and certificate evaluation move it:
    the local peer is the same, every record is still there and advanced,
    the live view has not shrunk and no timer was opened. *)
Definition moved_forward (n n' : core.Node) : Prop :=
  core.self n' = core.self n ∧
  records_advanced (core.view n) (core.view n') ∧
  discovery.liveMap (core.view n) ⊆ discovery.liveMap (core.view n') ∧
  discovery.timeoutMap (core.view n') ⊆ discovery.timeoutMap (core.view n).

(** A ping whose message marshals but which the transport fails to deliver
    or to get an answer for. *)
Definition send_fails (io : node.PingIO) : Prop :=
  ∃ data, node.marshalPing io (node.genNonce io) = inl data ∧
          ∀ a, ∃ e, node.Send io a data = inr e.

(** The accusation [createFalseAccusations] fabricates from a note, before
    it is signed. *)
Definition falseAccusationOf (me : bytes) (nt : node.note) : node.PbAccusation :=
  node.mkPbAccusation (node.add64 (node.epoch nt) 1) me
                      (node.id (node.note_peerId nt)) None.

(** A ping environment for the examples: the codec is the identity on the
    nonce, the transport echoes what a responder running [signPong] returns,
    and every signature verifies. *)
Definition echoIO : node.PingIO :=
  node.mkPingIO [Byte.x2a] inl (λ _ data, inl data)
                (λ bs, inl (node.mkPong bs (Some (node.mkSignature [] []))))
                (λ _ _ _ _, inl true) (λ d, d).

Definition deafIO : node.PingIO :=
  node.mkPingIO [Byte.x2a] inl (λ _ _, inr (errExternal "timeout"))
                (λ bs, inl (node.mkPong bs None))
                (λ _ _ _ _, inl true) (λ d, d).

(** The responder's side of [echoIO]: signatures are empty, and a pong is
    marshalled to its nonce. *)
Definition emptySign : bytes → node.signature + error :=
  λ _, inl (node.mkSignature [] []).

Definition nonceMarshal (pong : node.Pong) : bytes + error :=
  match node.Pong_Signature pong with
  | Some (node.mkSignature [] []) => inl (node.Pong_Nonce pong)
  | _ => inr (errExternal "unsupported")
  end.

Definition freshDest : node.pingDest := node.mkPingDest "s:2" [] 0.
Definition deadDest : node.pingDest := node.mkPingDest "s:2" [] 3.

(** The old monitor with every successor answering. *)
Definition reachable : node.Env :=
  node.mkEnv (λ _ _, None) (λ _ _ _, inl (node.mkSignature [] [])) (λ _ _, None).

(** * Properties *)

Import discovery core.

Section CoreProperties.
Context {env : Env}.

Lemma viewMap_if (b : bool) (v1 v2 : View) :
  viewMap v1 = viewMap v2 → viewMap (if b then v1 else v2) = viewMap v2.
Proof. by destruct b. Qed.

(** A note whose epoch the stored note already has is turned away without
    touching the node. *)
Lemma evalNote_old n gn p nt :
  View_Peer (view n) (gossip.Note_GetId gn) = Some p →
  note p = Some nt →
  note_epoch nt = gossip.Note_GetEpoch gn →
  evalNote n gn = (n, Some errOldNote).
Proof.
  intros Hp Hn He. unfold evalNote. rewrite Hp. unfold Peer_Note. rewrite Hn.
  unfold Note_IsMoreRecent. rewrite He.
  rewrite bool_decide_eq_false_2 by lia. reflexivity.
Qed.

(** Either [evalNote] leaves the node as it was, or the peer the note names
    now holds a note of the incoming epoch. *)
Lemma evalNote_cases n gn :
  (evalNote n gn).1 = n ∨
  ∃ p', View_Peer (view (evalNote n gn).1) (gossip.Note_GetId gn) = Some p' ∧
        ∃ nt, note p' = Some nt ∧ note_epoch nt = gossip.Note_GetEpoch gn.
Proof.
  unfold evalNote.
  destruct (View_Peer (view n) (gossip.Note_GetId gn)) as [p|] eqn:Hp; [|by left].
  set (newer := match Peer_Note p with
                | Some nt => Note_IsMoreRecent nt _ | None => true end).
  destruct newer eqn:Hnewer; simpl; [|by left].
  destruct (ValidMask n _); simpl; [|by left].
  destruct (decide _) as [Hlen|Hlen].
  - destruct (checkNoteSignature gn p); simpl; [|by left].
    right. eexists. split.
    + unfold View_Peer. simpl. rewrite viewMap_if by reflexivity.
      simpl. apply lookup_insert_eq.
    + eexists. split; reflexivity.
  - destruct (checkNoteSignature gn p); simpl; [|by left].
    right.
    match goal with |- context [Peer_IsAccused ?q] => destruct (Peer_IsAccused q) end; simpl.
    + eexists. split; [apply lookup_insert_eq|]. eexists. split; reflexivity.
    + eexists. split.
      * unfold View_Peer. rewrite viewMap_if by reflexivity.
        rewrite viewMap_if by reflexivity. simpl. apply lookup_insert_eq.
      * eexists. split; reflexivity.
Qed.

(** C4. [evalNote] is idempotent: for every node state and every incoming
    note, evaluating the note a second time leaves the whole node (stored
    notes, accusations, live view and timers) as the first evaluation left
    it. *)
Theorem evalNote_idempotent (n : Node) (gossipNote : option gossip.Note) :
  (evalNote (evalNote n gossipNote).1 gossipNote).1 = (evalNote n gossipNote).1.
Proof.
  destruct (evalNote_cases n gossipNote) as [Hsame | (p' & Hp' & nt & Hnt & He)].
  - by rewrite !Hsame.
  - by rewrite (evalNote_old _ _ _ _ Hp' Hnt He).
Qed.

(** ** The rebuttal loop *)

Lemma removeRebutted_fields e l p :
  Id (removeRebutted e p l) = Id p ∧ note (removeRebutted e p l) = note p ∧
  Addr (removeRebutted e p l) = Addr p ∧ cert (removeRebutted e p l) = cert p ∧
  nPing (removeRebutted e p l) = nPing p.
Proof.
  revert p. induction l as [|a l IH]; intros p; [done|].
  unfold removeRebutted in *. simpl.
  destruct (Accusation_IsMoreRecent a e); [|apply IH].
  destruct (IH (Peer_RemoveAccusation p a)) as (-> & -> & -> & -> & ->). done.
Qed.

Lemma removeRebutted_kept e l p r :
  (∀ a, a ∈ l → acc_ringNum a = r → ¬ acc_epoch a < e) →
  accusations (removeRebutted e p l) !! r = accusations p !! r.
Proof.
  revert p. induction l as [|a l IH]; intros p Hl; [done|].
  unfold removeRebutted in *. simpl.
  assert (Hrest : ∀ a', a' ∈ l → acc_ringNum a' = r → ¬ acc_epoch a' < e)
    by (intros a' Ha'; apply Hl; by right).
  unfold Accusation_IsMoreRecent. case_bool_decide as Hlt; [|by apply IH].
  rewrite IH by done. simpl. apply lookup_delete_ne.
  intros Heq. by apply (Hl a (list_elem_of_here _ _) Heq).
Qed.

Lemma removeRebutted_None e l p r :
  accusations p !! r = None → accusations (removeRebutted e p l) !! r = None.
Proof.
  revert p. induction l as [|a l IH]; intros p Hp; [done|].
  unfold removeRebutted in *. simpl.
  destruct (Accusation_IsMoreRecent a e); apply IH; [|done].
  simpl. rewrite lookup_delete. case_decide; done.
Qed.

Lemma removeRebutted_removed e l p r a :
  a ∈ l → acc_ringNum a = r → acc_epoch a < e →
  accusations (removeRebutted e p l) !! r = None.
Proof.
  revert p. induction l as [|a0 l IH]; intros p Hin Hr Hlt.
  - by apply elem_of_nil in Hin.
  - apply elem_of_cons in Hin as [->|Hin].
    + change (removeRebutted e p (a0 :: l)) with
        (removeRebutted e (if Accusation_IsMoreRecent a0 e
                           then Peer_RemoveAccusation p a0 else p) l).
      unfold Accusation_IsMoreRecent. rewrite bool_decide_eq_true_2 by done.
      apply removeRebutted_None. simpl. rewrite Hr. apply lookup_delete_eq.
    + change (removeRebutted e p (a0 :: l)) with
        (removeRebutted e (if Accusation_IsMoreRecent a0 e
                           then Peer_RemoveAccusation p a0 else p) l).
      by apply IH.
Qed.

Lemma elem_of_AllAccusations p a :
  a ∈ Peer_AllAccusations p ↔ ∃ r, accusations p !! r = Some a.
Proof.
  unfold Peer_AllAccusations. rewrite list_elem_of_fmap. split.
  - intros ([r a'] & -> & Hin). exists r. by apply elem_of_map_to_list in Hin.
  - intros (r & Hr). exists (r, a). split; [done|]. by apply elem_of_map_to_list.
Qed.

Lemma removeRebutted_all e p :
  ring_keyed p →
  accusations (removeRebutted e p (Peer_AllAccusations p))
  = filter (λ ra, ¬ acc_epoch ra.2 < e) (accusations p).
Proof.
  intros Hwf. apply map_eq. intros r.
  destruct (accusations p !! r) as [a|] eqn:Hr.
  - destruct (decide (acc_epoch a < e)) as [Hlt|Hge].
    + rewrite (removeRebutted_removed e _ p r a); [| |by apply Hwf|done].
      * symmetry. apply map_lookup_filter_None. right. intros a' Ha'.
        simplify_eq. simpl. tauto.
      * apply elem_of_AllAccusations. eauto.
    + rewrite removeRebutted_kept.
      * rewrite Hr. symmetry. by apply map_lookup_filter_Some.
      * intros a' Ha' Hr'. apply elem_of_AllAccusations in Ha' as (r' & Ha').
        pose proof (Hwf _ _ Ha'). simplify_eq. done.
  - rewrite removeRebutted_None by done. symmetry.
    apply map_lookup_filter_None. by left.
Qed.

Lemma AllAccusations_nil p : Peer_AllAccusations p = [] ↔ accusations p = ∅.
Proof.
  unfold Peer_AllAccusations. rewrite <- map_to_list_empty_iff. split.
  - apply fmap_nil_inv.
  - by intros ->.
Qed.


(** ** The live view and accusations *)

Lemma IsAccused_false p : Peer_IsAccused p = false ↔ accusations p = ∅.
Proof.
  unfold Peer_IsAccused. rewrite bool_decide_eq_false. split.
  - intros H. by destruct (decide (accusations p = ∅)).
  - intros -> H. done.
Qed.

(** [evalNote] puts a peer into the live view only when that peer has no
    stored accusation (left). *)
Lemma evalNote_enters_live_unaccused n gn id :
  id ∉ liveMap (view n) →
  id ∈ liveMap (view (evalNote n gn).1) →
  ∃ p', View_Peer (view (evalNote n gn).1) (gossip.Note_GetId gn) = Some p' ∧
        Id p' = id ∧ accusations p' = ∅.
Proof.
  intros Hout. unfold evalNote.
  destruct (View_Peer (view n) (gossip.Note_GetId gn)) as [p|] eqn:Hp; [|done].
  set (newer := match Peer_Note p with
                | Some nt => Note_IsMoreRecent nt _ | None => true end).
  destruct newer eqn:Hnewer; simpl; [|done].
  destruct (ValidMask n _); simpl; [|done].
  destruct (decide _) as [Hlen|Hlen].
  - apply nil_length_inv, AllAccusations_nil in Hlen.
    destruct (checkNoteSignature gn p); simpl; [|done].
    unfold View_IsAlive, View_Peer. simpl. case_bool_decide; simpl; [done|].
    intros Hin. apply elem_of_union in Hin as [Hin|Hin]; [|done].
    apply elem_of_singleton in Hin as ->.
    eexists. split; [apply lookup_insert_eq|]. done.
  - destruct (checkNoteSignature gn p); simpl; [|done].
    match goal with |- context [Peer_IsAccused ?q] =>
      destruct (Peer_IsAccused q) eqn:Hacc end; simpl; [done|].
    apply IsAccused_false in Hacc.
    unfold View_IsAlive, View_Peer.
    match goal with |- context [View_HasTimer ?v ?i] => destruct (View_HasTimer v i) end;
      simpl; (case_bool_decide; simpl; [done|]);
      intros Hin; (apply elem_of_union in Hin as [Hin|Hin]; [|done]);
      apply elem_of_singleton in Hin as ->;
      (eexists; split; [apply lookup_insert_eq|]); done.
Qed.

(** C1 (amended). A peer enters the live view through [evalNote] only when
    it has no stored accusation, but [evalAccusation] never takes a peer out
    of the live view: after it stores a new accusation against a peer of the
    view that was in the live view, the peer is still in the live view, the
    accusation is stored with it, and a timer for the peer is running. *)
Theorem evalAccusation_keeps_accused_live :
  (∀ (n : Node) (gossipNote : option gossip.Note) (id : string),
      id ∉ liveMap (view n) →
      id ∈ liveMap (view (evalNote n gossipNote).1) →
      ∃ p', View_Peer (view (evalNote n gossipNote).1)
                      (gossip.Note_GetId gossipNote) = Some p' ∧
            Id p' = id ∧ accusations p' = ∅) ∧
  (∀ (n n' : Node) (a : gossip.Accusation) (accuserPeer p : Peer) (key : string),
      View_Peer (view n) key = Some p →
      Id (self n) ≠ Id p →
      View_IsAlive (view n) (Id p) = true →
      evalAccusation n a accuserPeer (ViewPeer key) p = (n', None) →
      View_IsAlive (view n') (Id p) = true ∧
      View_HasTimer (view n') (Id p) = true ∧
      ∃ p' stored,
        View_Peer (view n') key = Some p' ∧
        Peer_RingAccusation p' (gossip.Acc_RingNum a) = Some stored ∧
        Accusation_Equal stored (Id p) (Id accuserPeer)
                         (gossip.Acc_RingNum a) (gossip.Acc_Epoch a) = true ∧
        Peer_IsAccused p' = true).
Proof.
  split; [apply evalNote_enters_live_unaccused|].
  intros n n' a accuserPeer p key Hp Hself Hlive. unfold evalAccusation.
  destruct (decide (Id (self n) = Id p)); [done|].
  match goal with |- context [if ?c then (setView _ n, Some errAccAlreadyExists) else _] =>
    destruct c end; [done|].
  destruct (Peer_Note p) as [nt|]; [|done].
  destruct (Note_Equal nt _); [|done].
  destruct (IsRingDisabled n _ _); [done|].
  destruct (ValidAccuser n p accuserPeer _); simpl; [|done].
  destruct (checkAccusationSignature a accuserPeer); simpl; [|done].
  cbn [Peer_AddAccusation].
  repeat match goal with
  | |- context [View_HasTimer ?v ?i] =>
      progress change (View_HasTimer v i) with (View_HasTimer (view n) (Id p))
  | |- context [View_IsAlive ?v ?i] =>
      progress change (View_IsAlive v i) with (View_IsAlive (view n) (Id p))
  end.
  rewrite Hlive, andb_true_r.
  destruct (View_HasTimer (view n) (Id p)) eqn:Ht; simpl; intros [= <-].
  - split; [exact Hlive|]. split; [exact Ht|].
    eexists _, _. split; [apply lookup_insert_eq|].
    split; [apply lookup_insert_eq|]. split.
    + unfold Accusation_Equal. simpl. by rewrite !bool_decide_eq_true_2.
    + apply bool_decide_eq_true_2. simpl. apply insert_non_empty.
  - split; [exact Hlive|]. split.
    { apply bool_decide_eq_true_2. simpl. rewrite lookup_insert_eq. by eexists. }
    eexists _, _. split; [apply lookup_insert_eq|].
    split; [apply lookup_insert_eq|]. split.
    + unfold Accusation_Equal. simpl. by rewrite !bool_decide_eq_true_2.
    + apply bool_decide_eq_true_2. simpl. apply insert_non_empty.
Qed.

(** C5. For an accused other than the local peer: if the accused already
    holds, for the incoming accusation's ring, an accusation equal to the
    incoming one (same accused, accuser, ring and epoch), [evalAccusation]
    returns [errAccAlreadyExists], leaves every peer record (and so every
    stored accusation) and the live view as they were, and opens a timer
    for the accused exactly when the accused had no timer and is in the
    live view. *)
Theorem evalAccusation_already_exists (n : Node) (a : gossip.Accusation)
    (accuserPeer p : Peer) (pref : PeerRef) (stored : Accusation) :
  Id (self n) ≠ Id p →
  Peer_RingAccusation p (gossip.Acc_RingNum a) = Some stored →
  Accusation_Equal stored (Id p) (Id accuserPeer)
                   (gossip.Acc_RingNum a) (gossip.Acc_Epoch a) = true →
  let n' := (evalAccusation n a accuserPeer pref p).1 in
  (evalAccusation n a accuserPeer pref p).2 = Some errAccAlreadyExists ∧
  self n' = self n ∧
  viewMap (view n') = viewMap (view n) ∧
  liveMap (view n') = liveMap (view n) ∧
  (View_HasTimer (view n) (Id p) = false ∧ View_IsAlive (view n) (Id p) = true →
   timeoutMap (view n')
   = <[Id p := mkTimeout (Id p) (Peer_Note p) (Id accuserPeer)]> (timeoutMap (view n))) ∧
  (¬ (View_HasTimer (view n) (Id p) = false ∧ View_IsAlive (view n) (Id p) = true) →
   timeoutMap (view n') = timeoutMap (view n)).
Proof.
  intros Hself Hring Heq. unfold evalAccusation.
  destruct (decide (Id (self n) = Id p)); [done|].
  rewrite Hring, Heq. simpl.
  destruct (View_HasTimer (view n) (Id p)), (View_IsAlive (view n) (Id p)); simpl;
    (repeat split; try done); try (intros [? ?]; done);
    try (intros Hn; destruct Hn; done).
Qed.

(** ** What [evalNote] touches *)

Lemma evalNote_self n gn : self (evalNote n gn).1 = self n.
Proof.
  unfold evalNote.
  repeat (first [case_match | case_decide]; simpl; try done).
Qed.

Lemma evalNote_viewMap n gn :
  viewMap (view (evalNote n gn).1) = viewMap (view n) ∨
  ∃ p p', viewMap (view n) !! gossip.Note_GetId gn = Some p ∧
          viewMap (view (evalNote n gn).1)
          = <[gossip.Note_GetId gn := p']> (viewMap (view n)).
Proof.
  unfold evalNote.
  destruct (View_Peer (view n) (gossip.Note_GetId gn)) as [p|] eqn:Hp; [|by left].
  repeat (first [case_match | case_decide]; simpl; try (by left));
    right; eexists _, _; (split; [exact Hp|]); reflexivity.
Qed.

Lemma evalNote_other_peer n gn k :
  gossip.Note_GetId gn ≠ k →
  viewMap (view (evalNote n gn).1) !! k = viewMap (view n) !! k.
Proof.
  intros Hne. destruct (evalNote_viewMap n gn) as [->|(p & p' & _ & ->)]; [done|].
  by apply lookup_insert_ne.
Qed.

Lemma evalNote_keeps_peers n gn k :
  is_Some (viewMap (view n) !! k) → is_Some (viewMap (view (evalNote n gn).1) !! k).
Proof.
  intros Hk. destruct (evalNote_viewMap n gn) as [->|(p & p' & _ & ->)]; [done|].
  rewrite lookup_insert. case_decide; [by eexists|done].
Qed.

Lemma addAccusations_from_empty (l : list Accusation) r :
  foldl (λ r a, gossip.addAccusation (Accusation_ToPbMsg a) r) r l
  = gossip.mkStateResponse (gossip.Certificates r) (gossip.Notes r)
      (gossip.Accusations r ++ (Accusation_ToPbMsg <$> l)) (gossip.ExternalGossip r).
Proof.
  revert r. induction l as [|a l IH]; intros r; simpl.
  - rewrite app_nil_r. by destruct r.
  - rewrite IH. simpl. by rewrite <- app_assoc.
Qed.


(** ** Merging notes and accusations *)

Lemma mergeNotes_one_frame n newNote :
  self (mergeNotes_one n newNote) = self n ∧
  viewMap (view (mergeNotes_one n newNote)) !! Id (self n)
  = viewMap (view n) !! Id (self n).
Proof.
  unfold mergeNotes_one. case_decide as Hid; [done|].
  split; [apply evalNote_self|]. apply evalNote_other_peer. congruence.
Qed.

(** C8. [mergeNotes] never changes the local peer's own note: whatever the
    incoming list holds, the local peer's record, and any record the view
    keeps under the local peer's id, are the same before and after; a note
    whose id is the local peer's is skipped without [evalNote] being applied
    to it. *)
Theorem mergeNotes_keeps_own_note (n : Node) (notes : list gossip.Note) :
  self (mergeNotes n notes) = self n ∧
  viewMap (view (mergeNotes n notes)) !! Id (self n) = viewMap (view n) !! Id (self n) ∧
  (∀ epoch mask sig,
      mergeNotes_one n (gossip.mkNote epoch (Id (self n)) mask sig) = n) ∧
  (∀ epoch mask sig rest,
      mergeNotes n (gossip.mkNote epoch (Id (self n)) mask sig :: rest)
      = mergeNotes n rest).
Proof.
  assert (Hskip : ∀ epoch mask sig,
             mergeNotes_one n (gossip.mkNote epoch (Id (self n)) mask sig) = n).
  { intros. unfold mergeNotes_one. simpl. by rewrite decide_True. }
  split; [|split; [|split]]; [| |exact Hskip|].
  - revert n Hskip. induction notes as [|x notes IH]; intros n _; [done|].
    unfold mergeNotes in *. simpl. rewrite IH.
    + apply mergeNotes_one_frame.
    + intros. unfold mergeNotes_one. simpl. by rewrite decide_True.
  - clear Hskip. revert n. induction notes as [|x notes IH]; intros n; [done|].
    unfold mergeNotes in *. simpl.
    destruct (mergeNotes_one_frame n x) as [Hs Hv].
    rewrite <- Hs at 1. rewrite IH. by rewrite Hs.
  - intros. unfold mergeNotes. simpl. by rewrite Hskip.
Qed.

(** C9. [mergeAccusations] drops an accusation whose accuser is neither the
    local peer nor in the full view, or whose accused is neither the local
    peer nor a peer of the full view with a stored note: the loop body ends
    before [evalAccusation] is called and the node is left as it was. *)
Theorem mergeAccusations_drops_unknown (n : Node) (acc : gossip.Accusation)
    (rest : list gossip.Accusation) :
  (gossip.Acc_Accuser acc ≠ Id (self n) ∧
   View_Peer (view n) (gossip.Acc_Accuser acc) = None) ∨
  (gossip.Acc_Accused acc ≠ Id (self n) ∧
   ∀ p, View_Peer (view n) (gossip.Acc_Accused acc) = Some p → Peer_Note p = None) →
  mergeAccusations_resolve n acc = None ∧
  mergeAccusations_one n acc = n ∧
  mergeAccusations n [acc] = n ∧
  mergeAccusations n (acc :: rest) = mergeAccusations n rest.
Proof.
  intros Hdrop.
  assert (Hres : mergeAccusations_resolve n acc = None).
  { unfold mergeAccusations_resolve. destruct Hdrop as [[Hne Hnone]|[Hne Hnote]].
    - rewrite decide_False by done. by rewrite Hnone.
    - destruct (if decide _ then _ else _); [|done].
      rewrite decide_False by done.
      destruct (View_Peer (view n) (gossip.Acc_Accused acc)) as [q|] eqn:Hq; [|done].
      by rewrite (Hnote q eq_refl). }
  assert (Hone : mergeAccusations_one n acc = n).
  { unfold mergeAccusations_one. by rewrite Hres. }
  unfold mergeAccusations. simpl. by rewrite Hone.
Qed.

(** What [mergeViews] appends for a peer the requester knows: the peer's
    note when its epoch is below the epoch the requester recorded, and
    always every accusation stored against the peer. *)
Lemma mergeViews_peer_known given reply p e :
  given !! Id p = Some e →
  gossip.Certificates (mergeViews_peer given reply p) = gossip.Certificates reply ∧
  gossip.Notes (mergeViews_peer given reply p)
  = gossip.Notes reply ++
    match Peer_Note p with
    | Some nt => if bool_decide (note_epoch nt < e) then [Note_ToPbMsg nt] else []
    | None => []
    end ∧
  gossip.Accusations (mergeViews_peer given reply p)
  = gossip.Accusations reply ++ (Accusation_ToPbMsg <$> Peer_AllAccusations p).
Proof.
  intros He. unfold mergeViews_peer. rewrite He, addAccusations_from_empty. simpl.
  unfold Note_IsMoreRecent.
  destruct (Peer_Note p) as [nt|]; [destruct (bool_decide _)|]; simpl;
    by rewrite ?app_nil_r.
Qed.

End CoreProperties.

Section MonitorProperties.
Context {env : node.Env}.

Lemma monitored_trans me p p' p'' :
  monitored me p p' → monitored me p' p'' → monitored me p p''.
Proof.
  intros [->|(nt & sig & Hnt & ->)]; [done|].
  intros [->|(nt' & sig' & Hnt' & ->)].
  - right. by exists nt, sig.
  - right. simpl in *. exists nt', sig'. done.
Qed.

Lemma monitored_at_refl me o : monitored_at me o o.
Proof. destruct o; simpl; [by left|done]. Qed.

Lemma monitorRing_monitored n rg k :
  node.node_peerId (node.monitorRing n rg).1 = node.node_peerId n ∧
  monitored_at (node.node_peerId n) (node.viewMap n !! k)
               (node.viewMap (node.monitorRing n rg).1 !! k).
Proof.
  unfold node.monitorRing.
  destruct (node.getRingSucc rg) as [succ|]; [|split; [done|apply monitored_at_refl]].
  case_decide; [split; [done|apply monitored_at_refl]|].
  destruct (node.clientMonitor _ _); [|split; [done|apply monitored_at_refl]].
  destruct (node.getViewPeer n (node.peerKey succ)) as [p|] eqn:Hp;
    [|split; [done|apply monitored_at_refl]].
  destruct (node.getNote p) as [nt|] eqn:Hnt; [|split; [done|apply monitored_at_refl]].
  destruct (node.signContent _ _ _) as [sig|]; [|split; [done|apply monitored_at_refl]].
  unfold node.setAccusation.
  destruct (node.setAccusationErr _ _); [split; [done|apply monitored_at_refl]|].
  cbn zeta.
  match goal with |- context [negb ?b] => destruct b end; simpl;
    (split; [done|]); rewrite lookup_insert; case_decide as Hk;
    try apply monitored_at_refl; subst k; unfold node.getViewPeer in Hp; rewrite Hp;
    right; by exists nt, sig.
Qed.

Lemma MonitorOver_monitored rings n k :
  monitored_at (node.node_peerId n) (node.viewMap n !! k)
               (node.viewMap (node.MonitorOver rings n) !! k).
Proof.
  revert n. induction rings as [|rg rings IH]; intros n; [apply monitored_at_refl|].
  simpl. destruct (monitorRing_monitored n rg k) as [Hme Hstep].
  destruct (node.monitorRing n rg) as [n1 stop]. simpl in *.
  destruct stop; [done|].
  specialize (IH n1). rewrite Hme in IH.
  destruct (node.viewMap n !! k), (node.viewMap n1 !! k),
    (node.viewMap (node.MonitorOver rings n1) !! k); simpl in *; try done.
  by eapply monitored_trans.
Qed.


End MonitorProperties.



(** C10. [SetGossipContent] returns [errNoData] and leaves the client, and so
    the outgoing gossip payload, as it was when the data has length 0; for
    every non-empty data it returns no error and the payload is the data, the
    rest of the node being untouched. *)
Theorem SetGossipContent_replaces_payload (c : ifrit.Client) :
  ifrit.SetGossipContent c [] = (c, Some errNoData) ∧
  ∀ (b : Byte.byte) (data : bytes),
    (ifrit.SetGossipContent c (b :: data)).2 = None ∧
    externalGossip (ifrit.node (ifrit.SetGossipContent c (b :: data)).1) = b :: data ∧
    self (ifrit.node (ifrit.SetGossipContent c (b :: data)).1) = self (ifrit.node c) ∧
    view (ifrit.node (ifrit.SetGossipContent c (b :: data)).1) = view (ifrit.node c).
Proof.
  split; [reflexivity|]. intros b data. unfold ifrit.SetGossipContent.
  rewrite decide_False by (simpl; lia). done.
Qed.




(** C1 (the claim as stated fails). In a node where the live peers "p" and
    "q" carry no accusation, [evalAccusation] stores q's accusation against
    "p": afterwards "p" is in the live view and has a stored accusation. *)
Lemma evalAccusation_live_peer_accused :
  (∀ k p, viewMap (view examples.quietNode) !! k = Some p →
          Id p ∈ liveMap (view examples.quietNode) → accusations p = ∅) ∧
  ∃ n' p',
    @evalAccusation examples.trusting examples.quietNode (examples.pbAccP 1)
       examples.peerQ (ViewPeer "p") (examples.peerOf "p" 1 ∅) = (n', None) ∧
    View_Peer (view n') "p" = Some p' ∧
    Id p' ∈ liveMap (view n') ∧
    accusations p' ≠ ∅.
Proof.
  split.
  - intros k p Hk _. simpl in Hk.
    apply lookup_insert_Some in Hk as [[_ <-]|[_ Hk]]; [done|].
    apply lookup_singleton_Some in Hk as [_ <-]. done.
  - eexists _, _. split; [vm_compute; reflexivity|].
    split; [vm_compute; reflexivity|]. split.
    + simpl. set_solver.
    + intros H. apply (f_equal (λ m : gmap N Accusation, m !! 0)) in H.
      vm_compute in H. discriminate H.
Qed.

Lemma evalAccusation_keeps_accused_live_witness :
  View_IsAlive (view (@evalAccusation examples.trusting examples.quietNode
                        (examples.pbAccP 1) examples.peerQ (ViewPeer "p")
                        (examples.peerOf "p" 1 ∅)).1) "p" = true.
Proof.
  destruct (@evalAccusation_keeps_accused_live examples.trusting) as [_ H].
  refine (proj1 (H examples.quietNode _ (examples.pbAccP 1) examples.peerQ
                   (examples.peerOf "p" 1 ∅) "p" _ _ _ _)).
  - reflexivity.
  - simpl. discriminate.
  - vm_compute. reflexivity.
  - vm_compute. reflexivity.
Defined.

(** C7 (what the code does). "p" holds a note of epoch 5 and the local peer
    one of epoch 7.  For a requester that recorded the older epochs 3 and 2,
    [mergeViews] appends neither note; for a requester that recorded epoch 9
    for both, it appends both. *)
Lemma mergeViews_withholds_fresher_notes :
  mergeViews examples.fresherNode examples.behind gossip.emptyResponse
  = Some gossip.emptyResponse ∧
  mergeViews examples.fresherNode examples.ahead gossip.emptyResponse
  = Some (gossip.mkStateResponse []
            [Note_ToPbMsg (mkNote "p" 5 examples.ones [] []);
             Note_ToPbMsg (mkNote "self" 7 examples.ones [] [])] [] []).
Proof. split; vm_compute; reflexivity. Qed.

Lemma mergeAccusations_drops_unknown_witness :
  @mergeAccusations examples.trusting examples.quietNode
    [gossip.mkAccusation 1 "stranger" "p" examples.ones 0 None] = examples.quietNode.
Proof.
  refine (proj1 (proj2 (proj2 (@mergeAccusations_drops_unknown examples.trusting
            examples.quietNode
            (gossip.mkAccusation 1 "stranger" "p" examples.ones 0 None) [] _)))).
  left. split; [discriminate|reflexivity].
Defined.

Lemma evalAccusation_already_exists_witness :
  (@evalAccusation examples.trusting examples.accusedNode (examples.pbAccP 2)
     examples.peerQ (ViewPeer "p") (examples.peerOf "p" 1 {[ 0 := examples.accP2 ]})).2
  = Some errAccAlreadyExists.
Proof.
  refine (proj1 (@evalAccusation_already_exists examples.trusting examples.accusedNode
            (examples.pbAccP 2) examples.peerQ
            (examples.peerOf "p" 1 {[ 0 := examples.accP2 ]}) (ViewPeer "p")
            examples.accP2 _ _ _)).
  - simpl. discriminate.
  - reflexivity.
  - vm_compute. reflexivity.
Defined.

(** ** The scenarios of handlers_test.go, run on the handlers above *)

(** TestAddValidNote: a note with a higher epoch replaces the stored one and
    the peer joins the live view. *)
Example TestAddValidNote :
  ∃ n' p',
    @evalNote examples.trusting examples.knownNode (Some (examples.noteP 2)) = (n', None) ∧
    View_Peer (view n') "p" = Some p' ∧
    note_epoch <$> Peer_Note p' = Some 2 ∧
    View_IsAlive (view n') "p" = true.
Proof. eexists _, _. repeat split; vm_compute; reflexivity. Qed.

(** TestAddInvalidNote: a note with a lower epoch does not replace the stored
    one. *)
Example TestAddInvalidNote :
  @evalNote examples.trusting examples.knownNode (Some (examples.noteP 0))
  = (examples.knownNode, Some errOldNote).
Proof. vm_compute. reflexivity. Qed.

(** TestAddNoteToNonExistingPeer: a note about a peer outside the full view is
    not stored. *)
Example TestAddNoteToNonExistingPeer :
  @evalNote examples.trusting examples.knownNode
     (Some (gossip.mkNote 2 "test1234" examples.ones None))
  = (examples.knownNode, Some errNoPeer).
Proof. vm_compute. reflexivity. Qed.

(** TestValidRebuttal: a note above the accusation's epoch is stored, clears
    the accusation and the timer, and brings the peer back into the live
    view. *)
Example TestValidRebuttal :
  ∃ n' p',
    @evalNote examples.trusting examples.accusedNode (Some (examples.noteP 3)) = (n', None) ∧
    View_Peer (view n') "p" = Some p' ∧
    note_epoch <$> Peer_Note p' = Some 3 ∧
    Peer_IsAccused p' = false ∧
    View_HasTimer (view n') "p" = false ∧
    View_IsAlive (view n') "p" = true.
Proof. eexists _, _. repeat split; vm_compute; reflexivity. Qed.

(** * Further properties of the handlers *)

Section HandlerProperties.
Context {env : Env}.

Lemma removeRebutted_subseteq e l p :
  accusations (removeRebutted e p l) ⊆ accusations p.
Proof.
  revert p. induction l as [|a l IH]; intros p; [done|].
  change (removeRebutted e p (a :: l)) with
    (removeRebutted e (if Accusation_IsMoreRecent a e
                       then Peer_RemoveAccusation p a else p) l).
  destruct (Accusation_IsMoreRecent a e); [|apply IH].
  etrans; [apply IH|]. simpl. apply delete_subseteq.
Qed.

Lemma add_live_view v key p1 :
  (if negb (View_IsAlive (storePeer v key p1) (Id p1))
   then View_AddLive (storePeer v key p1) p1 else storePeer v key p1)
  = mkView (<[key := p1]> (viewMap v)) ({[Id p1]} ∪ liveMap v) (timeoutMap v).
Proof.
  unfold View_IsAlive, View_AddLive, storePeer. simpl.
  case_bool_decide as Hin; simpl; [|done].
  f_equal. symmetry. apply subseteq_union_1_L. by apply singleton_subseteq_l.
Qed.

Lemma clear_view v key p3 :
  (if negb (View_IsAlive
              (if View_HasTimer (storePeer v key p3) (Id p3)
               then View_DeleteTimeout (storePeer v key p3) (Id p3)
               else storePeer v key p3) (Id p3))
   then View_AddLive
          (if View_HasTimer (storePeer v key p3) (Id p3)
           then View_DeleteTimeout (storePeer v key p3) (Id p3)
           else storePeer v key p3) p3
   else (if View_HasTimer (storePeer v key p3) (Id p3)
         then View_DeleteTimeout (storePeer v key p3) (Id p3)
         else storePeer v key p3))
  = mkView (<[key := p3]> (viewMap v)) ({[Id p3]} ∪ liveMap v)
           (delete (Id p3) (timeoutMap v)).
Proof.
  assert (Ht : (if View_HasTimer (storePeer v key p3) (Id p3)
                then View_DeleteTimeout (storePeer v key p3) (Id p3)
                else storePeer v key p3)
               = mkView (<[key := p3]> (viewMap v)) (liveMap v)
                        (delete (Id p3) (timeoutMap v))).
  { unfold View_HasTimer, View_DeleteTimeout, storePeer. simpl.
    case_bool_decide as Ht; [done|]. f_equal. symmetry. apply delete_id.
    destruct (timeoutMap v !! Id p3) eqn:E; [|done]. destruct Ht. by eexists. }
  rewrite Ht. unfold View_IsAlive, View_AddLive. simpl.
  case_bool_decide as Hin; simpl; [|done].
  f_equal. symmetry. apply subseteq_union_1_L. by apply singleton_subseteq_l.
Qed.

(** The two ways [evalNote] ends: with an error and the node as it was, or
    with the incoming note stored in the record it names. *)
Lemma evalNote_shape n gn :
  (∃ err, evalNote n gn = (n, Some err)) ∨
  ∃ p p' live' timers',
    evalNote n gn
    = (setView (mkView (<[gossip.Note_GetId gn := p']> (viewMap (view n))) live' timers') n,
       None) ∧
    View_Peer (view n) (gossip.Note_GetId gn) = Some p ∧
    ValidMask n (gossip.Note_GetMask gn) = true ∧
    checkNoteSignature gn p = true ∧
    (∀ old, note p = Some old → note_epoch old < gossip.Note_GetEpoch gn) ∧
    Id p' = Id p ∧ Addr p' = Addr p ∧ cert p' = cert p ∧
    note p' = Some (mkNote (Id p) (gossip.Note_GetEpoch gn) (gossip.Note_GetMask gn)
                      (gossip.GetR (gossip.Note_GetSignature gn))
                      (gossip.GetS (gossip.Note_GetSignature gn))) ∧
    accusations p'
    = accusations (removeRebutted (gossip.Note_GetEpoch gn) p (Peer_AllAccusations p)) ∧
    ((accusations p' ≠ ∅ ∧ live' = liveMap (view n) ∧ timers' = timeoutMap (view n) ∧
      nPing p' = nPing p) ∨
     (accusations p' = ∅ ∧ live' = {[Id p]} ∪ liveMap (view n) ∧
      ((accusations p = ∅ ∧ timers' = timeoutMap (view n) ∧ nPing p' = nPing p) ∨
       (accusations p ≠ ∅ ∧ timers' = delete (Id p) (timeoutMap (view n)) ∧
        nPing p' = 0)))).
Proof.
  unfold evalNote.
  destruct (View_Peer (view n) (gossip.Note_GetId gn)) as [p|] eqn:Hp; [|left; eauto].
  set (newer := match Peer_Note p with
                | Some nt => Note_IsMoreRecent nt _ | None => true end).
  destruct newer eqn:Hnewer; cbn [negb]; [|left; eauto].
  assert (Hold : ∀ old, note p = Some old → note_epoch old < gossip.Note_GetEpoch gn).
  { intros old Hold. subst newer. unfold Peer_Note in Hnewer. rewrite Hold in Hnewer.
    by apply bool_decide_eq_true_1 in Hnewer. }
  destruct (ValidMask n _) eqn:Hmask; cbn [negb]; [|left; eauto].
  destruct (decide _) as [Hlen|Hlen].
  - apply nil_length_inv in Hlen. pose proof Hlen as Hempty.
    apply AllAccusations_nil in Hempty.
    destruct (checkNoteSignature gn p) eqn:Hsig; cbn [negb]; [|left; eauto].
    right. cbv zeta. rewrite add_live_view.
    eexists p, _, _, _. split; [reflexivity|].
    rewrite Hlen. simpl. repeat split; try done.
    right. split; [done|]. split; [done|]. left. done.
  - assert (Hacc : accusations p ≠ ∅).
    { intros He. apply Hlen. apply AllAccusations_nil in He. by rewrite He. }
    destruct (checkNoteSignature gn p) eqn:Hsig; cbn [negb]; [|left; eauto].
    right. cbv zeta.
    pose proof (removeRebutted_fields (gossip.Note_GetEpoch gn) (Peer_AllAccusations p) p)
      as (HId & Hnote & HAddr & Hcert & HnPing).
    match goal with |- context [Peer_IsAccused ?q] =>
      destruct (Peer_IsAccused q) eqn:Hq end; cbn [negb].
    + eexists p, _, _, _. split; [reflexivity|]. simpl. rewrite HId, HAddr, Hcert, HnPing.
      repeat split; try done. left. split; [|done].
      unfold Peer_IsAccused in Hq. apply bool_decide_eq_true_1 in Hq. exact Hq.
    + apply IsAccused_false in Hq. simpl in Hq.
      rewrite clear_view.
      eexists p, _, _, _. split; [reflexivity|]. simpl. rewrite HId, HAddr, Hcert.
      repeat split; try done.
      right. split; [done|]. split; [done|]. right. done.
Qed.

Lemma epoch_le_refl o : epoch_le o o.
Proof. destruct o; simpl; [|done]. eexists. split; [done|lia]. Qed.

Lemma epoch_le_trans o1 o2 o3 : epoch_le o1 o2 → epoch_le o2 o3 → epoch_le o1 o3.
Proof.
  destruct o1 as [e1|]; simpl; [|done]. intros (e2 & -> & H12). simpl.
  intros (e3 & -> & H23). eexists. split; [done|lia].
Qed.

Lemma peer_advanced_refl p : peer_advanced p p.
Proof. repeat split; try done. apply epoch_le_refl. Qed.

Lemma peer_advanced_trans p1 p2 p3 :
  peer_advanced p1 p2 → peer_advanced p2 p3 → peer_advanced p1 p3.
Proof.
  intros (?&?&?&?&?) (?&?&?&?&?). repeat split; try congruence.
  - by eapply epoch_le_trans.
  - by etrans.
Qed.

Lemma records_advanced_refl v : records_advanced v v.
Proof. intros k p Hk. exists p. split; [done|apply peer_advanced_refl]. Qed.

Lemma records_advanced_trans v1 v2 v3 :
  records_advanced v1 v2 → records_advanced v2 v3 → records_advanced v1 v3.
Proof.
  intros H12 H23 k p Hk. destruct (H12 k p Hk) as (p2 & Hk2 & Hp2).
  destruct (H23 k p2 Hk2) as (p3 & Hk3 & Hp3). exists p3. split; [done|].
  by eapply peer_advanced_trans.
Qed.

(** X1. Whenever [evalNote] returns an error (unknown peer, old note,
    invalid mask, invalid signature) it has changed nothing: the node is the
    one it was given. *)
Theorem evalNote_error_leaves_node (n : Node) (gossipNote : option gossip.Note) :
  (evalNote n gossipNote).2 = None ∨ (evalNote n gossipNote).1 = n.
Proof.
  destruct (evalNote_shape n gossipNote) as [[err ->]|(p & p' & l & t & -> & _)];
    [by right|by left].
Qed.

(** X2. [evalNote] returns no error only for a note about a peer of the full
    view whose mask is valid, whose signature verifies against that peer and
    whose epoch is strictly above the stored note's; afterwards the record
    holds exactly the incoming note (epoch, mask and signature) and is
    otherwise the peer it was. *)
Theorem evalNote_accepts_verified (n n' : Node) (gossipNote : option gossip.Note) :
  evalNote n gossipNote = (n', None) →
  ∃ p p',
    View_Peer (view n) (gossip.Note_GetId gossipNote) = Some p ∧
    ValidMask n (gossip.Note_GetMask gossipNote) = true ∧
    checkNoteSignature gossipNote p = true ∧
    (∀ old, Peer_Note p = Some old → note_epoch old < gossip.Note_GetEpoch gossipNote) ∧
    View_Peer (view n') (gossip.Note_GetId gossipNote) = Some p' ∧
    Peer_Note p'
    = Some (mkNote (Id p) (gossip.Note_GetEpoch gossipNote)
              (gossip.Note_GetMask gossipNote)
              (gossip.GetR (gossip.Note_GetSignature gossipNote))
              (gossip.GetS (gossip.Note_GetSignature gossipNote))) ∧
    Id p' = Id p ∧ Addr p' = Addr p ∧ Peer_Certificate p' = Peer_Certificate p.
Proof.
  intros Hres.
  destruct (evalNote_shape n gossipNote)
    as [[err Herr]|(p & p' & l & t & Heq & Hp & Hm & Hs & Hold & HId & HAddr & Hc & Hn & _)];
    [congruence|].
  rewrite Heq in Hres. injection Hres as <-.
  exists p, p'. repeat split; try done. apply lookup_insert_eq.
Qed.

(** How one [evalNote] moves the view. *)
Lemma evalNote_forward (n : Node) (gossipNote : option gossip.Note) :
  dom (viewMap (view (evalNote n gossipNote).1)) = dom (viewMap (view n)) ∧
  records_advanced (view n) (view (evalNote n gossipNote).1) ∧
  liveMap (view n) ⊆ liveMap (view (evalNote n gossipNote).1) ∧
  timeoutMap (view (evalNote n gossipNote).1) ⊆ timeoutMap (view n) ∧
  self (evalNote n gossipNote).1 = self n.
Proof.
  destruct (evalNote_shape n gossipNote)
    as [[err ->]|(p & p' & l & t & -> & Hp & _ & _ & Hold & HId & HAddr & Hc & Hn & Ha & Hlt)].
  { simpl. repeat split; try done. apply records_advanced_refl. }
  simpl. split; [|split; [|split; [|split]]]; [| | | |done].
  - rewrite dom_insert_L. unfold View_Peer in Hp. apply elem_of_dom_2 in Hp.
    apply subseteq_union_1_L. by apply singleton_subseteq_l.
  - intros k q Hk. simpl.
    destruct (decide (k = gossip.Note_GetId gossipNote)) as [->|Hne].
    + unfold View_Peer in Hp. rewrite Hp in Hk. injection Hk as <-.
      exists p'. split; [apply lookup_insert_eq|].
      repeat split; try done.
      * unfold epoch_of. rewrite Hn. destruct (note p) as [old|] eqn:Ho; simpl; [|done].
        eexists. split; [done|]. specialize (Hold old eq_refl). lia.
      * rewrite Ha. apply removeRebutted_subseteq.
    + exists q. split; [by rewrite lookup_insert_ne|apply peer_advanced_refl].
  - destruct Hlt as [(_ & -> & _)|(_ & -> & _)]; [done|]. apply union_subseteq_r.
  - destruct Hlt as [(_ & _ & -> & _)|(_ & _ & [(_ & -> & _)|(_ & -> & _)])];
      [done|done|]. apply delete_subseteq.
Qed.

(** X3. [evalNote] only moves the view forward: it never adds or removes a
    peer of the full view, never drops a stored note or lowers its epoch,
    never adds an accusation, never takes a peer out of the live view, never
    opens a timer, and never touches the local peer's own record. *)
Theorem evalNote_advances (n : Node) (gossipNote : option gossip.Note) :
  dom (viewMap (view (evalNote n gossipNote).1)) = dom (viewMap (view n)) ∧
  records_advanced (view n) (view (evalNote n gossipNote).1) ∧
  liveMap (view n) ⊆ liveMap (view (evalNote n gossipNote).1) ∧
  timeoutMap (view (evalNote n gossipNote).1) ⊆ timeoutMap (view n) ∧
  self (evalNote n gossipNote).1 = self n.
Proof.
  destruct (evalNote_forward n gossipNote) as (Hdom & Hrec & Hlive & Htimers & Hself).
  split; [exact Hdom|]. split; [exact Hrec|]. split; [exact Hlive|].
  split; [exact Htimers|exact Hself].
Qed.

(** X4. [mergeNotes] only moves the view forward, whatever notes it is
    given: the full view keeps the same peers, no stored note is dropped or
    goes back in epoch, no accusation is added, no peer leaves the live view
    and no timer is opened. *)
Theorem mergeNotes_advances (n : Node) (notes : list gossip.Note) :
  dom (viewMap (view (mergeNotes n notes))) = dom (viewMap (view n)) ∧
  records_advanced (view n) (view (mergeNotes n notes)) ∧
  liveMap (view n) ⊆ liveMap (view (mergeNotes n notes)) ∧
  timeoutMap (view (mergeNotes n notes)) ⊆ timeoutMap (view n).
Proof.
  revert n. induction notes as [|x notes IH]; intros n.
  { repeat split; try done. apply records_advanced_refl. }
  unfold mergeNotes in *. simpl.
  assert (Hone :
    dom (viewMap (view (mergeNotes_one n x))) = dom (viewMap (view n)) ∧
    records_advanced (view n) (view (mergeNotes_one n x)) ∧
    liveMap (view n) ⊆ liveMap (view (mergeNotes_one n x)) ∧
    timeoutMap (view (mergeNotes_one n x)) ⊆ timeoutMap (view n)).
  { unfold mergeNotes_one. case_decide.
    - repeat split; try done. apply records_advanced_refl.
    - destruct (evalNote_forward n (Some x)) as (?&?&?&?&_). done. }
  destruct Hone as (Hd & Hr & Hl & Ht).
  destruct (IH (mergeNotes_one n x)) as (Hd' & Hr' & Hl' & Ht').
  split; [congruence|]. split; [by eapply records_advanced_trans|].
  split; by etrans.
Qed.

(** ** [evalAccusation] *)

(** X5. Apart from [errAccAlreadyExists] (which may open a timer), every
    error of [evalAccusation] (invalid self accusation, wrong epoch, disabled
    ring, invalid accuser, invalid signature) leaves the node exactly as it
    was, whichever peer is accused. *)
Theorem evalAccusation_error_leaves_node (n : Node) (a : gossip.Accusation)
    (accuserPeer p : Peer) (pref : PeerRef) :
  (evalAccusation n a accuserPeer pref p).2 = None ∨
  (evalAccusation n a accuserPeer pref p).2 = Some errAccAlreadyExists ∨
  (evalAccusation n a accuserPeer pref p).1 = n.
Proof.
  unfold evalAccusation.
  destruct (decide (Id (self n) = Id p)).
  { destruct (ShouldRebuttal n _ _); [by left|by right; right]. }
  match goal with |- context [if ?c then (setView _ n, Some errAccAlreadyExists) else _] =>
    destruct c end; [by right; left|].
  destruct (Peer_Note p) as [nt|]; [|by right; right].
  destruct (Note_Equal nt _); [|by right; right].
  destruct (IsRingDisabled n _ _); [by right; right|].
  destruct (ValidAccuser n p accuserPeer _); simpl; [|by right; right].
  destruct (checkAccusationSignature a accuserPeer); simpl; [|by right; right].
  by left.
Qed.

(** What [evalAccusation] does when it stores an accusation against a peer
    of the view other than the local peer. *)
Lemma evalAccusation_stored n n' a accuserPeer key p :
  Id (self n) ≠ Id p →
  evalAccusation n a accuserPeer (ViewPeer key) p = (n', None) →
  ∃ nt timers',
    Peer_Note p = Some nt ∧
    note_epoch nt = gossip.Acc_Epoch a ∧
    IsRingDisabled n (Note_Mask nt) (gossip.Acc_RingNum a) = false ∧
    ValidAccuser n p accuserPeer (gossip.Acc_RingNum a) = true ∧
    checkAccusationSignature a accuserPeer = true ∧
    n' = setView
           (mkView
              (<[key := setAccusations
                          (<[gossip.Acc_RingNum a :=
                               mkAccusation (Id p) (Id accuserPeer) (gossip.Acc_Epoch a)
                                 (Note_Mask nt) (gossip.Acc_RingNum a)
                                 (gossip.GetR (gossip.Acc_Signature a))
                                 (gossip.GetS (gossip.Acc_Signature a))]>
                             (accusations p)) p]> (viewMap (view n)))
              (liveMap (view n)) timers') n ∧
    (timers' = timeoutMap (view n) ∧
     (is_Some (timeoutMap (view n) !! Id p) ∨ Id p ∉ liveMap (view n)) ∨
     timers' = <[Id p := mkTimeout (Id p) (Some nt) (Id accuserPeer)]> (timeoutMap (view n)) ∧
     timeoutMap (view n) !! Id p = None ∧ Id p ∈ liveMap (view n)).
Proof.
  intros Hself. unfold evalAccusation.
  destruct (decide (Id (self n) = Id p)); [done|].
  match goal with |- context [if ?c then (setView _ n, Some errAccAlreadyExists) else _] =>
    destruct c end; [done|].
  destruct (Peer_Note p) as [nt|] eqn:Hnt; [|done].
  destruct (Note_Equal nt _) eqn:Heq; [|done].
  destruct (IsRingDisabled n _ _) eqn:Hdis; [done|].
  destruct (ValidAccuser n p accuserPeer _) eqn:Hval; simpl; [|done].
  destruct (checkAccusationSignature a accuserPeer) eqn:Hsig; simpl; [|done].
  apply bool_decide_eq_true_1 in Heq.
  unfold View_HasTimer, View_IsAlive. simpl.
  case_bool_decide as Ht; simpl.
  - intros [= <-]. exists nt, (timeoutMap (view n)). repeat split; try done.
    left. split; [done|by left].
  - case_bool_decide as Hl; simpl; intros [= <-].
    + eexists nt, _. repeat split; try done. right.
      split; [unfold Peer_Note in Hnt; by rewrite Hnt|].
      split; [|done]. destruct (timeoutMap (view n) !! Id p) eqn:E; [|done].
      destruct Ht. by eexists.
    + exists nt, (timeoutMap (view n)). repeat split; try done.
      left. split; [done|by right].
Qed.

(** X6. [evalAccusation] stores an accusation against a peer of the view
    only when the peer's current note has the accusation's epoch, the ring
    is enabled in that note's mask, the accuser is valid for that ring and
    the signature verifies; what it stores, under the accusation's ring,
    carries the accused's and the accuser's ids, the epoch and the mask of
    the accused's current note. *)
Theorem evalAccusation_stores_only_valid (n n' : Node) (a : gossip.Accusation)
    (accuserPeer p : Peer) (key : string) :
  Id (self n) ≠ Id p →
  evalAccusation n a accuserPeer (ViewPeer key) p = (n', None) →
  ∃ nt p',
    Peer_Note p = Some nt ∧
    note_epoch nt = gossip.Acc_Epoch a ∧
    IsRingDisabled n (Note_Mask nt) (gossip.Acc_RingNum a) = false ∧
    ValidAccuser n p accuserPeer (gossip.Acc_RingNum a) = true ∧
    checkAccusationSignature a accuserPeer = true ∧
    View_Peer (view n') key = Some p' ∧
    Peer_RingAccusation p' (gossip.Acc_RingNum a)
    = Some (mkAccusation (Id p) (Id accuserPeer) (note_epoch nt) (Note_Mask nt)
              (gossip.Acc_RingNum a) (gossip.GetR (gossip.Acc_Signature a))
              (gossip.GetS (gossip.Acc_Signature a))).
Proof.
  intros Hself Hres.
  destruct (evalAccusation_stored _ _ _ _ _ _ Hself Hres)
    as (nt & timers' & Hnt & He & Hd & Hv & Hs & -> & _).
  eexists nt, _. repeat split; try done.
  - apply lookup_insert_eq.
  - unfold Peer_RingAccusation. simpl. rewrite He. apply lookup_insert_eq.
Qed.

(** X7. Storing an accusation against a peer of the view leaves everything
    else alone: the local peer, the live view, every other record, the
    accused's own note, ping counter and accusations on other rings are
    unchanged, and no timer that was running is replaced or removed. *)
Theorem evalAccusation_frame (n n' : Node) (a : gossip.Accusation)
    (accuserPeer p : Peer) (key : string) :
  Id (self n) ≠ Id p →
  evalAccusation n a accuserPeer (ViewPeer key) p = (n', None) →
  self n' = self n ∧
  liveMap (view n') = liveMap (view n) ∧
  timeoutMap (view n) ⊆ timeoutMap (view n') ∧
  (∀ k, k ≠ key → viewMap (view n') !! k = viewMap (view n) !! k) ∧
  ∃ p', viewMap (view n') !! key = Some p' ∧
        Id p' = Id p ∧ Addr p' = Addr p ∧ cert p' = cert p ∧ note p' = note p ∧
        nPing p' = nPing p ∧
        ∀ r, r ≠ gossip.Acc_RingNum a → accusations p' !! r = accusations p !! r.
Proof.
  intros Hself Hres.
  destruct (evalAccusation_stored _ _ _ _ _ _ Hself Hres)
    as (nt & timers' & Hnt & He & Hd & Hv & Hs & -> & Ht).
  simpl. split; [done|]. split; [done|]. split; [|split].
  - destruct Ht as [[-> _]|(-> & Hnone & _)]; [done|]. by apply insert_subseteq.
  - intros k Hk. by apply lookup_insert_ne.
  - eexists. split; [apply lookup_insert_eq|]. simpl. repeat split; try done.
    intros r Hr. by apply lookup_insert_ne.
Qed.

(** ** Certificates *)

(** The three ways [evalCertificate] ends. *)
Lemma evalCertificate_shape n cert :
  (∃ err, evalCertificate n cert = (n, Some err)) ∨
  (∃ c, cert = Some c ∧ is_Some (viewMap (view n) !! SubjectKeyId c) ∧
        evalCertificate n cert = (n, None)) ∨
  (∃ c, cert = Some c ∧ SubjectKeyId c ≠ Id (self n) ∧
        String.length (SubjectKeyId c) = 32%nat ∧
        checkCertificateSignature c (caCert n) = None ∧
        viewMap (view n) !! SubjectKeyId c = None ∧
        evalCertificate n cert
        = (setView (View_AddFull (view n) (SubjectKeyId c) (X509Raw c)) n, None)).
Proof.
  unfold evalCertificate. destruct cert as [c|]; [|left; eauto].
  case_decide as Hself; [left; eauto|].
  case_decide as Hlen; [left; eauto|].
  destruct (checkCertificateSignature c (caCert n)) eqn:Hsig; [left; eauto|].
  unfold View_Exists. case_bool_decide as Hex; simpl.
  - right; left. eauto.
  - right; right. exists c. split; [done|]. split; [|split; [|split; [done|split; [|done]]]].
    + intros H. apply Hself. by rewrite H.
    + by destruct (decide (String.length (SubjectKeyId c) = 32%nat)).
    + destruct (viewMap (view n) !! SubjectKeyId c) eqn:E; [|done].
      destruct Hex. by eexists.
Qed.

(** What one [evalCertificate] keeps and what it may add. *)
Lemma evalCertificate_frame (n : Node) (cert : option X509Certificate) :
  self (evalCertificate n cert).1 = self n ∧
  liveMap (view (evalCertificate n cert).1) = liveMap (view n) ∧
  timeoutMap (view (evalCertificate n cert).1) = timeoutMap (view n) ∧
  (∀ k p, viewMap (view n) !! k = Some p →
          viewMap (view (evalCertificate n cert).1) !! k = Some p) ∧
  (∀ k p', viewMap (view n) !! k = None →
           viewMap (view (evalCertificate n cert).1) !! k = Some p' →
           ∃ c, cert = Some c ∧ SubjectKeyId c = k ∧ String.length k = 32%nat ∧
                k ≠ Id (self n) ∧ checkCertificateSignature c (caCert n) = None ∧
                p' = mkPeer k "" (X509Raw c) None ∅ 0) ∧
  ((evalCertificate n cert).2 = None →
   ∃ c, cert = Some c ∧
        is_Some (viewMap (view (evalCertificate n cert).1) !! SubjectKeyId c)).
Proof.
  destruct (evalCertificate_shape n cert)
    as [[err ->]|[(c & -> & Hin & ->)|(c & -> & Hself & Hlen & Hsig & Hnone & ->)]]; simpl.
  - repeat split; try done. intros; congruence.
  - repeat split; try done; [intros; congruence|]. intros _. by exists c.
  - repeat split; try done.
    + intros k p Hk. rewrite lookup_insert_ne; [done|]. congruence.
    + intros k p' Hk Hk'. rewrite lookup_insert in Hk'. case_decide as Heq; [|congruence].
      injection Hk' as <-. subst k. exists c. repeat split; done.
    + intros _. exists c. split; [done|]. rewrite lookup_insert_eq. by eexists.
Qed.

(** X8. [evalCertificate] never touches what the node already knows: the
    local peer, the live view, the timers and every record of the full view
    stay as they are.  A record it adds sits under the certificate's id,
    which has length 32, differs from the local id and was signed by the CA,
    and the new peer has no note, no accusation and a zero ping counter.
    When it returns no error the certificate's id is in the full view. *)
Theorem evalCertificate_adds_only_certified (n : Node) (cert : option X509Certificate) :
  self (evalCertificate n cert).1 = self n ∧
  liveMap (view (evalCertificate n cert).1) = liveMap (view n) ∧
  timeoutMap (view (evalCertificate n cert).1) = timeoutMap (view n) ∧
  (∀ k p, viewMap (view n) !! k = Some p →
          viewMap (view (evalCertificate n cert).1) !! k = Some p) ∧
  (∀ k p', viewMap (view n) !! k = None →
           viewMap (view (evalCertificate n cert).1) !! k = Some p' →
           ∃ c, cert = Some c ∧ SubjectKeyId c = k ∧ String.length k = 32%nat ∧
                k ≠ Id (self n) ∧ checkCertificateSignature c (caCert n) = None ∧
                p' = mkPeer k "" (X509Raw c) None ∅ 0) ∧
  ((evalCertificate n cert).2 = None →
   ∃ c, cert = Some c ∧
        is_Some (viewMap (view (evalCertificate n cert).1) !! SubjectKeyId c)).
Proof.
  destruct (evalCertificate_frame n cert) as (Hself & Hlive & Htimers & Hkeep & Hnew & Hok).
  split; [exact Hself|]. split; [exact Hlive|]. split; [exact Htimers|].
  split; [exact Hkeep|]. split; [exact Hnew|exact Hok].
Qed.

(** X9. [evalCertificate] is idempotent: evaluating the same certificate
    again returns the same result as the first time, except that an
    accepted certificate is then found in the full view, and the node does
    not change any more. *)
Theorem evalCertificate_idempotent (n : Node) (cert : option X509Certificate) :
  evalCertificate (evalCertificate n cert).1 cert
  = ((evalCertificate n cert).1, (evalCertificate n cert).2).
Proof.
  destruct (evalCertificate_shape n cert)
    as [[err Herr]|[(c & -> & Hin & Heq)|(c & -> & Hself & Hlen & Hsig & Hnone & Heq)]].
  - rewrite Herr. simpl. exact Herr.
  - rewrite Heq. simpl. exact Heq.
  - rewrite Heq. simpl. unfold evalCertificate. simpl.
    rewrite decide_False by congruence. rewrite decide_False by (intros H; by apply H).
    rewrite Hsig. unfold View_Exists. simpl.
    rewrite bool_decide_eq_true_2; [done|]. rewrite lookup_insert_eq. by eexists.
Qed.

Lemma mergeCertificates_one_frame parse n b :
  self (mergeCertificates_one parse n b) = self n ∧
  caCert (mergeCertificates_one parse n b) = caCert n ∧
  liveMap (view (mergeCertificates_one parse n b)) = liveMap (view n) ∧
  timeoutMap (view (mergeCertificates_one parse n b)) = timeoutMap (view n) ∧
  (∀ k p, viewMap (view n) !! k = Some p →
          viewMap (view (mergeCertificates_one parse n b)) !! k = Some p).
Proof.
  unfold mergeCertificates_one. destruct (parse (gossip.Raw b)) as [c|]; [|done].
  destruct (evalCertificate_frame n (Some c)) as (?&?&?&?&_).
  repeat split; try done.
  destruct (evalCertificate_shape n (Some c))
    as [[err ->]|[(c' & _ & _ & ->)|(c' & _ & _ & _ & _ & _ & ->)]]; done.
Qed.

Lemma mergeCertificates_frame parse certs n :
  self (mergeCertificates parse n certs) = self n ∧
  caCert (mergeCertificates parse n certs) = caCert n ∧
  liveMap (view (mergeCertificates parse n certs)) = liveMap (view n) ∧
  timeoutMap (view (mergeCertificates parse n certs)) = timeoutMap (view n) ∧
  (∀ k p, viewMap (view n) !! k = Some p →
          viewMap (view (mergeCertificates parse n certs)) !! k = Some p).
Proof.
  revert n. induction certs as [|b certs IH]; intros n; [done|].
  unfold mergeCertificates in *. simpl.
  destruct (mergeCertificates_one_frame parse n b) as (Hs & Hc & Hl & Ht & Hk).
  destruct (IH (mergeCertificates_one parse n b)) as (Hs' & Hc' & Hl' & Ht' & Hk').
  repeat split; try congruence. intros k p Hp. by apply Hk', Hk.
Qed.

(** X10. [mergeCertificates] only adds certified peers: the local peer, the
    live view, the timers and every record already in the full view stay as
    they are, and every record it adds comes from a certificate of the list
    that parses, carries an id of length 32 other than the local id and is
    signed by the CA; the new peer has no note and no accusation. *)
Theorem mergeCertificates_adds_only_certified
    (parse : bytes → X509Certificate + error) (n : Node)
    (certs : list gossip.Certificate) :
  self (mergeCertificates parse n certs) = self n ∧
  liveMap (view (mergeCertificates parse n certs)) = liveMap (view n) ∧
  timeoutMap (view (mergeCertificates parse n certs)) = timeoutMap (view n) ∧
  (∀ k p, viewMap (view n) !! k = Some p →
          viewMap (view (mergeCertificates parse n certs)) !! k = Some p) ∧
  (∀ k p', viewMap (view n) !! k = None →
           viewMap (view (mergeCertificates parse n certs)) !! k = Some p' →
           ∃ b c, b ∈ certs ∧ parse (gossip.Raw b) = inl c ∧ SubjectKeyId c = k ∧
                  String.length k = 32%nat ∧ k ≠ Id (self n) ∧
                  checkCertificateSignature c (caCert n) = None ∧
                  p' = mkPeer k "" (X509Raw c) None ∅ 0).
Proof.
  destruct (mergeCertificates_frame parse certs n) as (Hs & _ & Hl & Ht & Hk).
  repeat split; try done.
  revert n Hs Hl Ht Hk. induction certs as [|b certs IH]; intros n _ _ _ _ k p' Hnone Hp'.
  { simpl in Hp'. congruence. }
  unfold mergeCertificates in *. simpl in Hp'.
  destruct (mergeCertificates_one_frame parse n b) as (Hs1 & Hc1 & _).
  destruct (viewMap (view (mergeCertificates_one parse n b)) !! k) as [q|] eqn:Hq.
  - destruct (mergeCertificates_frame parse certs (mergeCertificates_one parse n b))
      as (_ & _ & _ & _ & Hkeep).
    unfold mergeCertificates in Hkeep. rewrite (Hkeep k q Hq) in Hp'. injection Hp' as <-.
    unfold mergeCertificates_one in Hq.
    destruct (parse (gossip.Raw b)) as [c|] eqn:Hparse; [|congruence].
    destruct (evalCertificate_frame n (Some c)) as (_ & _ & _ & _ & Hnew & _).
    destruct (Hnew k q Hnone Hq) as (c' & [= <-] & ? & ? & ? & ? & ?).
    exists b, c. repeat split; try done. by left.
  - destruct (mergeCertificates_frame parse certs (mergeCertificates_one parse n b))
      as (Hs2 & Hc2 & Hl2 & Ht2 & Hk2).
    destruct (IH _ Hs2 Hl2 Ht2 Hk2 k p' Hq Hp')
      as (b' & c & Hin & Hparse & ? & ? & ? & ? & ?).
    exists b', c. rewrite <- Hs1, <- Hc1. repeat split; try done. by right.
Qed.

(** ** Invariants of the view *)

(** X11. [evalNote] keeps the invariants of the view: records sit under
    their own id, the live view is within the full view, every stored
    accusation sits under its ring, names its holder and has an epoch the
    holder's note has reached, and every live peer that is accused has a
    timer. *)
Theorem evalNote_keeps_invariants (n : Node) (gossipNote : option gossip.Note) :
  view_inv (view n) → view_inv (view (evalNote n gossipNote).1).
Proof.
  intros (Hkeys & Hlive & Haccs & Htimed).
  destruct (evalNote_shape n gossipNote)
    as [[err ->]|(p & p' & l & t & -> & Hp & _ & _ & Hold & HId & HAddr & Hc & Hn & Ha & Hlt)];
    [done|].
  unfold View_Peer in Hp. pose proof (Hkeys _ _ Hp) as Hkey.
  assert (Hsub : accusations p' ⊆ accusations p)
    by (rewrite Ha; apply removeRebutted_subseteq).
  simpl. split; [|split; [|split]].
  - intros k q Hk. simpl in Hk. rewrite lookup_insert in Hk.
    case_decide as Heq; [|by apply Hkeys]. injection Hk as <-. congruence.
  - intros i Hi. simpl in *. rewrite lookup_insert. case_decide; [by eexists|].
    apply Hlive. destruct Hlt as [(_ & -> & _)|(_ & -> & _)]; [done|].
    apply elem_of_union in Hi as [Hi|Hi]; [|done].
    apply elem_of_singleton in Hi. congruence.
  - intros k q Hk. simpl in Hk. rewrite lookup_insert in Hk.
    case_decide as Heq; [|by eapply Haccs]. injection Hk as <-.
    intros r a Hra. pose proof (lookup_weaken _ _ _ _ Hra Hsub) as Hra0.
    destruct (Haccs _ _ Hp r a Hra0) as (Hr & Hacc & nt & Hnt & Hle).
    split; [done|]. split; [congruence|].
    eexists. split; [exact Hn|]. simpl. specialize (Hold nt Hnt). lia.
  - intros k q Hk Hin Hne. simpl in *. rewrite lookup_insert in Hk.
    case_decide as Heq.
    + injection Hk as <-.
      destruct Hlt as [(_ & -> & -> & _)|(Hempty & _)]; [|done].
      rewrite HId in *. apply (Htimed _ p Hp Hin).
      intros He. apply Hne. apply map_empty. intros r.
      destruct (accusations p' !! r) as [acc|] eqn:E; [|done].
      pose proof (lookup_weaken _ _ _ _ E Hsub) as E'. rewrite He in E'.
      by rewrite lookup_empty in E'.
    + pose proof (Hkeys _ _ Hk) as Hq.
      destruct Hlt as [(_ & -> & -> & _)|(_ & -> & Ht)]; [by eapply Htimed|].
      assert (Id q ∈ liveMap (view n)) as Hin'.
      { apply elem_of_union in Hin as [Hin|Hin]; [|done].
        apply elem_of_singleton in Hin. congruence. }
      destruct Ht as [(_ & -> & _)|(_ & -> & _)]; [by eapply Htimed|].
      rewrite lookup_delete_ne by congruence. by eapply Htimed.
Qed.

(** What [evalAccusation] does to a peer of the view other than the local
    peer when it stores nothing: at most a timer for the accused is opened. *)
Lemma evalAccusation_not_stored n a accuserPeer pref p err :
  Id (self n) ≠ Id p →
  (evalAccusation n a accuserPeer pref p).2 = Some err →
  ∃ timers',
    (evalAccusation n a accuserPeer pref p).1
    = setView (mkView (viewMap (view n)) (liveMap (view n)) timers') n ∧
    timeoutMap (view n) ⊆ timers'.
Proof.
  intros Hself. unfold evalAccusation.
  destruct (decide (Id (self n) = Id p)); [done|].
  destruct n as [sf [vm lm tm] lc cc gh mh eg]. simpl in *.
  match goal with |- context [if ?c then (_, Some errAccAlreadyExists) else _] =>
    destruct c end.
  { simpl. intros _. unfold View_HasTimer, View_IsAlive, View_StartTimer, setView. simpl.
    case_bool_decide as Ht; simpl; [by eexists|].
    case_bool_decide as Hl; simpl; [|by eexists].
    eexists. split; [done|]. apply insert_subseteq.
    destruct (tm !! Id p) eqn:E; [|done]. destruct Ht. by eexists. }
  unfold setView. simpl.
  destruct (Peer_Note p) as [nt|]; [|by eexists].
  destruct (Note_Equal nt _); [|by eexists].
  match goal with |- context [IsRingDisabled ?a ?b ?c] => destruct (IsRingDisabled a b c) end;
    [by eexists|].
  match goal with |- context [ValidAccuser ?a ?b ?c ?d] => destruct (ValidAccuser a b c d) end;
    simpl; [|by eexists].
  destruct (checkAccusationSignature a accuserPeer); simpl; [|by eexists].
  done.
Qed.

(** [evalAccusation] and the invariants of the view. *)
Lemma evalAccusation_inv (n : Node) (a : gossip.Accusation)
    (accuserPeer p : Peer) (key : string) :
  View_Peer (view n) key = Some p →
  Id (self n) ≠ Id p →
  view_inv (view n) →
  view_inv (view (evalAccusation n a accuserPeer (ViewPeer key) p).1).
Proof.
  intros Hp Hself (Hkeys & Hlive & Haccs & Htimed).
  unfold View_Peer in Hp. pose proof (Hkeys _ _ Hp) as Hkey.
  destruct (evalAccusation n a accuserPeer (ViewPeer key) p) as [n' [err|]] eqn:Hres.
  - destruct (evalAccusation_not_stored n a accuserPeer (ViewPeer key) p err Hself)
      as (timers' & Hn' & Hsub); [by rewrite Hres|].
    rewrite Hres in Hn'. simpl in Hn'. subst n'. simpl.
    split; [done|]. split; [done|]. split; [done|].
    intros k q Hk Hin Hne. simpl in *. eapply lookup_weaken_is_Some; [|exact Hsub].
    by eapply Htimed.
  - destruct (evalAccusation_stored _ _ _ _ _ _ Hself Hres)
      as (nt & timers' & Hnt & He & _ & _ & _ & -> & Ht).
    unfold Peer_Note in Hnt. simpl. split; [|split; [|split]].
    + intros k q Hk. simpl in Hk. rewrite lookup_insert in Hk.
      case_decide as Heq; [|by apply Hkeys]. injection Hk as <-. simpl. congruence.
    + intros i Hi. simpl in *. rewrite lookup_insert. case_decide; [by eexists|].
      by apply Hlive.
    + intros k q Hk. simpl in Hk. rewrite lookup_insert in Hk.
      case_decide as Heq; [|by eapply Haccs]. injection Hk as <-.
      intros r acc Hra. simpl in Hra. rewrite lookup_insert in Hra.
      case_decide as Hr.
      * injection Hra as <-. simpl. repeat split; try done.
        exists nt. split; [done|]. lia.
      * destruct (Haccs _ _ Hp r acc Hra) as (? & ? & nt' & ? & ?).
        simpl. repeat split; try done. by exists nt'.
    + intros k q Hk Hin Hne. simpl in *. rewrite lookup_insert in Hk.
      case_decide as Heq.
      * injection Hk as <-. simpl in *.
        destruct Ht as [[-> [Hsome|Hnot]]|(-> & _ & _)]; [done|done|].
        rewrite lookup_insert_eq. by eexists.
      * assert (is_Some (timeoutMap (view n) !! Id q)) as Hq by (by eapply Htimed).
        destruct Ht as [[-> _]|(-> & Hnone & _)]; [done|].
        eapply lookup_weaken_is_Some; [exact Hq|]. by apply insert_subseteq.
Qed.

(** X12. [evalAccusation], called for a peer of the view other than the
    local peer, keeps the invariants of the view, whatever it returns. *)
Theorem evalAccusation_keeps_invariants (n : Node) (a : gossip.Accusation)
    (accuserPeer p : Peer) (key : string) :
  View_Peer (view n) key = Some p →
  Id (self n) ≠ Id p →
  view_inv (view n) →
  view_inv (view (evalAccusation n a accuserPeer (ViewPeer key) p).1).
Proof.
  intros Hp Hself Hinv.
  destruct (evalAccusation_inv n a accuserPeer p key Hp Hself Hinv)
    as (Hkeys & Hlive & Haccs & Htimed).
  split; [exact Hkeys|]. split; [exact Hlive|]. split; [exact Haccs|exact Htimed].
Qed.

(** [evalCertificate] keeps the invariants of the view. *)
Theorem evalCertificate_keeps_invariants (n : Node) (cert : option X509Certificate) :
  view_inv (view n) → view_inv (view (evalCertificate n cert).1).
Proof.
  intros (Hkeys & Hlive & Haccs & Htimed).
  destruct (evalCertificate_shape n cert)
    as [[err ->]|[(c & -> & Hin & ->)|(c & -> & Hself & Hlen & Hsig & Hnone & ->)]];
    [done|done|].
  simpl. split; [|split; [|split]].
  - intros k q Hk. simpl in Hk. rewrite lookup_insert in Hk.
    case_decide as Heq; [|by apply Hkeys]. by injection Hk as <-.
  - intros i Hi. simpl in *. rewrite lookup_insert. case_decide; [by eexists|].
    by apply Hlive.
  - intros k q Hk. simpl in Hk. rewrite lookup_insert in Hk.
    case_decide as Heq; [|by eapply Haccs]. injection Hk as <-.
    intros r acc Hra. simpl in Hra. by rewrite lookup_empty in Hra.
  - intros k q Hk Hin Hne. simpl in *. rewrite lookup_insert in Hk.
    case_decide as Heq; [|by eapply Htimed]. injection Hk as <-. by destruct Hne.
Qed.

(** An accepted note clears a peer whose accusations are well formed. *)
Lemma rebuttal_clears_record (n n' : Node) (gossipNote : option gossip.Note)
    (p : Peer) :
  View_Peer (view n) (gossip.Note_GetId gossipNote) = Some p →
  accusations p ≠ ∅ →
  accusations_wf p →
  evalNote n gossipNote = (n', None) →
  ∃ p', View_Peer (view n') (gossip.Note_GetId gossipNote) = Some p' ∧
        accusations p' = ∅ ∧ nPing p' = 0 ∧
        View_IsAlive (view n') (Id p) = true ∧
        View_HasTimer (view n') (Id p) = false.
Proof.
  intros Hp Hacc Hwf Hres.
  destruct (evalNote_shape n gossipNote)
    as [[err Herr]|(q & p' & l & t & Heq & Hq & _ & _ & Hold & HId & _ & _ & Hn & Ha & Hlt)];
    [congruence|].
  rewrite Hp in Hq. injection Hq as <-. rewrite Heq in Hres. injection Hres as <-.
  assert (Hempty : accusations p' = ∅).
  { rewrite Ha, removeRebutted_all by (intros r a Hra; by destruct (Hwf r a Hra)).
    apply map_empty. intros r. apply map_lookup_filter_None.
    destruct (accusations p !! r) as [a|] eqn:Hra; [right|by left].
    intros a' [= <-]. simpl.
    destruct (Hwf r a Hra) as (_ & _ & nt & Hnt & Hle).
    specialize (Hold nt Hnt). intros Hn'. apply Hn'. lia. }
  exists p'. split; [apply lookup_insert_eq|]. split; [done|].
  destruct Hlt as [(Hne & _)|(_ & -> & [(He & _)|(_ & -> & HnP)])]; [done|done|].
  split; [done|]. split.
  - apply bool_decide_eq_true_2. simpl. apply elem_of_union_l. by apply elem_of_singleton.
  - apply bool_decide_eq_false_2. simpl. rewrite lookup_delete_eq. by intros [? ?].
Qed.

(** X13. A rebuttal clears the peer: when the accusations of a peer have
    epochs its note has reached and sit under their own rings, a note
    [evalNote] accepts for that accused peer removes every accusation
    against it, resets its ping counter, deletes its timer and puts it in
    the live view. *)
Theorem evalNote_rebuttal_clears (n n' : Node) (gossipNote : option gossip.Note)
    (p : Peer) :
  View_Peer (view n) (gossip.Note_GetId gossipNote) = Some p →
  accusations p ≠ ∅ →
  accusations_wf p →
  evalNote n gossipNote = (n', None) →
  ∃ p', View_Peer (view n') (gossip.Note_GetId gossipNote) = Some p' ∧
        accusations p' = ∅ ∧ nPing p' = 0 ∧
        View_IsAlive (view n') (Id p) = true ∧
        View_HasTimer (view n') (Id p) = false.
Proof.
  intros Hp Hacc Hwf Hres.
  destruct (rebuttal_clears_record n n' gossipNote p Hp Hacc Hwf Hres)
    as (p' & Hp' & Hempty & Hping & Hlive & Htimer).
  exists p'. split; [exact Hp'|]. split; [exact Hempty|]. split; [exact Hping|].
  split; [exact Hlive|exact Htimer].
Qed.

(** A note that meets the four conditions is accepted. *)
Lemma evalNote_accepts_when n gn p :
  View_Peer (view n) (gossip.Note_GetId gn) = Some p →
  (∀ old, Peer_Note p = Some old → note_epoch old < gossip.Note_GetEpoch gn) →
  ValidMask n (gossip.Note_GetMask gn) = true →
  checkNoteSignature gn p = true →
  (evalNote n gn).2 = None.
Proof.
  intros Hp Hold Hm Hs. unfold evalNote. rewrite Hp.
  assert (Hnewer : match Peer_Note p with
                   | Some nt => Note_IsMoreRecent nt (gossip.Note_GetEpoch gn)
                   | None => true
                   end = true).
  { destruct (Peer_Note p) as [old|]; [|done].
    apply bool_decide_eq_true_2. by apply Hold. }
  rewrite Hnewer, Hm. simpl. rewrite Hs. simpl.
  destruct (decide _); [done|]. by destruct (Peer_IsAccused _).
Qed.

(** X14. [evalNote] accepts exactly the notes that name a peer of the full
    view, are strictly newer than that peer's stored note (or the peer has
    none), carry a valid mask and a signature that verifies against the
    peer. *)
Theorem evalNote_accepts_exactly (n : Node) (gossipNote : option gossip.Note) :
  (evalNote n gossipNote).2 = None ↔
  ∃ p, View_Peer (view n) (gossip.Note_GetId gossipNote) = Some p ∧
       (∀ old, Peer_Note p = Some old →
               note_epoch old < gossip.Note_GetEpoch gossipNote) ∧
       ValidMask n (gossip.Note_GetMask gossipNote) = true ∧
       checkNoteSignature gossipNote p = true.
Proof.
  split.
  - intros Hres.
    destruct (evalNote_shape n gossipNote)
      as [[err Herr]|(p & p' & l & t & Heq & Hp & Hm & Hs & Hold & _)].
    + rewrite Herr in Hres. discriminate.
    + exists p. done.
  - intros (p & Hp & Hold & Hm & Hs). by eapply evalNote_accepts_when.
Qed.


(** ** [mergeViews] *)

Lemma mergeViews_peer_closed given reply p :
  mergeViews_peer given reply p
  = gossip.mkStateResponse
      (gossip.Certificates reply ++ certsFor given p)
      (gossip.Notes reply ++ notesFor given p)
      (gossip.Accusations reply ++ accusationsFor p)
      (gossip.ExternalGossip reply).
Proof.
  unfold mergeViews_peer, certsFor, notesFor, accusationsFor.
  rewrite addAccusations_from_empty.
  destruct (given !! Id p) as [e|]; destruct (Peer_Note p) as [nt|]; simpl;
    try destruct (Note_IsMoreRecent nt e); simpl; by rewrite ?app_nil_r.
Qed.

(** The loop of [mergeViews] over the full view, in closed form. *)
Lemma mergeViews_loop_closed given (peers : list Peer) reply :
  foldl (mergeViews_peer given) reply peers
  = gossip.mkStateResponse
      (gossip.Certificates reply ++ (peers ≫= certsFor given))
      (gossip.Notes reply ++ (peers ≫= notesFor given))
      (gossip.Accusations reply ++ (peers ≫= accusationsFor))
      (gossip.ExternalGossip reply).
Proof.
  revert reply. induction peers as [|p peers IH]; intros reply; simpl.
  - rewrite !app_nil_r. by destruct reply.
  - rewrite IH, mergeViews_peer_closed. simpl. by rewrite <- !app_assoc.
Qed.

(** X16. What a requester gets from [mergeViews], starting from an empty
    reply: the certificates are exactly those of the full-view peers whose
    id is absent from its map; the accusations are exactly the accusations
    stored against the peers of the full view, all of them; the note of
    every peer absent from its map is included; and the application payload
    is left empty. *)
Theorem mergeViews_reply_contents (n : Node) (given : gmap string N)
    (reply : gossip.StateResponse) :
  mergeViews n given gossip.emptyResponse = Some reply →
  (∀ c, c ∈ gossip.Certificates reply ↔
        ∃ p, p ∈ View_Full (view n) ∧ given !! Id p = None ∧
             c = gossip.mkCertificate (Peer_Certificate p)) ∧
  (∀ a, a ∈ gossip.Accusations reply ↔
        ∃ p acc, p ∈ View_Full (view n) ∧ acc ∈ Peer_AllAccusations p ∧
                 a = Accusation_ToPbMsg acc) ∧
  (∀ p nt, p ∈ View_Full (view n) → given !! Id p = None → Peer_Note p = Some nt →
           Note_ToPbMsg nt ∈ gossip.Notes reply) ∧
  gossip.ExternalGossip reply = [].
Proof.
  unfold mergeViews. rewrite mergeViews_loop_closed. simpl.
  destruct (Peer_Note (self n)) as [localNote|]; [|done]. simpl.
  intros Hreply.
  assert (Hcerts : gossip.Certificates reply = View_Full (view n) ≫= certsFor given)
    by (destruct (match given !! Id (self n) with Some _ => _ | None => _ end);
        injection Hreply as <-; done).
  assert (Haccs : gossip.Accusations reply = View_Full (view n) ≫= accusationsFor)
    by (destruct (match given !! Id (self n) with Some _ => _ | None => _ end);
        injection Hreply as <-; done).
  assert (Hnotes : ∃ tail, gossip.Notes reply
                           = (View_Full (view n) ≫= notesFor given) ++ tail)
    by (destruct (match given !! Id (self n) with Some _ => _ | None => _ end);
        injection Hreply as <-; simpl; eexists; [done|by rewrite app_nil_r]).
  assert (Hext : gossip.ExternalGossip reply = [])
    by (destruct (match given !! Id (self n) with Some _ => _ | None => _ end);
        injection Hreply as <-; done).
  split; [|split; [|split; [|done]]].
  - intros c. rewrite Hcerts, list_elem_of_bind. split.
    + intros (p & Hc & Hp). exists p. unfold certsFor in Hc.
      destruct (given !! Id p); [by apply elem_of_nil in Hc|].
      apply list_elem_of_singleton in Hc. done.
    + intros (p & Hp & Hg & ->). exists p. split; [|done].
      unfold certsFor. rewrite Hg. by apply list_elem_of_singleton.
  - intros a. rewrite Haccs, list_elem_of_bind. split.
    + intros (p & Ha & Hp). unfold accusationsFor in Ha.
      apply list_elem_of_fmap in Ha as (acc & -> & Hacc). by exists p, acc.
    + intros (p & acc & Hp & Hacc & ->). exists p. split; [|done].
      unfold accusationsFor. apply list_elem_of_fmap. by exists acc.
  - intros p nt Hp Hg Hnt. destruct Hnotes as [tail ->].
    apply elem_of_app. left. apply list_elem_of_bind. exists p. split; [|done].
    unfold notesFor. rewrite Hnt, Hg. by apply list_elem_of_singleton.
Qed.

(** ** [mergeAccusations] *)

Lemma accused_only_refl v : accused_only v v.
Proof. repeat split; try done. intros k p Hk. exists p. done. Qed.

Lemma accused_only_trans v1 v2 v3 :
  accused_only v1 v2 → accused_only v2 v3 → accused_only v1 v3.
Proof.
  intros (Hl & Ht & Hd & Hr) (Hl' & Ht' & Hd' & Hr').
  split; [congruence|]. split; [by etrans|]. split; [congruence|].
  intros k p Hk. destruct (Hr k p Hk) as (p2 & Hk2 & ? & ? & ? & ? & ?).
  destruct (Hr' k p2 Hk2) as (p3 & Hk3 & ? & ? & ? & ? & ?).
  exists p3. repeat split; congruence.
Qed.

Lemma mergeAccusations_resolve_view n acc accuser pref p :
  gossip.Acc_Accused acc ≠ Id (self n) →
  mergeAccusations_resolve n acc = Some (accuser, (pref, p)) →
  pref = ViewPeer (gossip.Acc_Accused acc) ∧
  View_Peer (view n) (gossip.Acc_Accused acc) = Some p.
Proof.
  intros Hne. unfold mergeAccusations_resolve.
  destruct (if decide _ then _ else _) as [accuser'|]; [|done].
  rewrite decide_False by done.
  destruct (View_Peer (view n) (gossip.Acc_Accused acc)) as [q|]; [|done].
  destruct (Peer_Note q); [|done]. by intros [= _ <- <-].
Qed.

Lemma mergeAccusations_one_accuses n acc :
  view_inv (view n) →
  gossip.Acc_Accused acc ≠ Id (self n) →
  view_inv (view (mergeAccusations_one n acc)) ∧
  self (mergeAccusations_one n acc) = self n ∧
  accused_only (view n) (view (mergeAccusations_one n acc)).
Proof.
  intros Hinv Hne. unfold mergeAccusations_one.
  destruct (mergeAccusations_resolve n acc) as [[accuser [pref p]]|] eqn:Hres;
    [|split; [done|split; [done|apply accused_only_refl]]].
  destruct (mergeAccusations_resolve_view _ _ _ _ _ Hne Hres) as [-> Hp].
  assert (Hself : Id (self n) ≠ Id p).
  { destruct Hinv as (Hkeys & _). rewrite (Hkeys _ _ Hp). congruence. }
  split; [by apply evalAccusation_inv|].
  destruct (evalAccusation n acc accuser (ViewPeer (gossip.Acc_Accused acc)) p)
    as [n' [err|]] eqn:Hev.
  - destruct (evalAccusation_not_stored n acc accuser (ViewPeer (gossip.Acc_Accused acc))
                p err Hself) as (timers' & Hn' & Hsub); [by rewrite Hev|].
    rewrite Hev in Hn'. simpl in *. subst n'. simpl. split; [done|].
    repeat split; try done. intros k q Hk. by exists q.
  - destruct (evalAccusation_stored _ _ _ _ _ _ Hself Hev)
      as (nt & timers' & _ & _ & _ & _ & _ & -> & Ht).
    simpl. split; [done|]. split; [done|]. split; [|split].
    + destruct Ht as [[-> _]|(-> & Hnone & _)]; [done|]. by apply insert_subseteq.
    + simpl. rewrite dom_insert_L. unfold View_Peer in Hp. apply elem_of_dom_2 in Hp.
      apply subseteq_union_1_L. by apply singleton_subseteq_l.
    + intros k q Hk. simpl. rewrite lookup_insert. case_decide as Heq.
      * subst k. unfold View_Peer in Hp. rewrite Hp in Hk. injection Hk as <-.
        eexists. split; [done|]. done.
      * exists q. done.
Qed.

(** X17. [mergeAccusations], given accusations none of which names the local
    peer as accused, changes nothing but accusations and timers: on a view
    that satisfies the invariants it keeps them, the local peer and the
    live view are unchanged, the full view keeps the same peers with the
    same notes, certificates and ping counters, and no running timer is
    removed or replaced. *)
Theorem mergeAccusations_only_accuses (n : Node) (accs : list gossip.Accusation) :
  view_inv (view n) →
  Forall (λ acc, gossip.Acc_Accused acc ≠ Id (self n)) accs →
  view_inv (view (mergeAccusations n accs)) ∧
  self (mergeAccusations n accs) = self n ∧
  accused_only (view n) (view (mergeAccusations n accs)).
Proof.
  revert n. induction accs as [|acc accs IH]; intros n Hinv Hall.
  { split; [done|]. split; [done|apply accused_only_refl]. }
  apply Forall_cons in Hall as [Hacc Hall].
  destruct (mergeAccusations_one_accuses n acc Hinv Hacc) as (Hinv1 & Hself1 & Hrel1).
  unfold mergeAccusations in *. simpl.
  destruct (IH (mergeAccusations_one n acc) Hinv1) as (Hinv2 & Hself2 & Hrel2).
  { rewrite Hself1. exact Hall. }
  split; [done|]. split; [congruence|]. by eapply accused_only_trans.
Qed.

(** ** [Spread] *)

Lemma moved_forward_refl n : moved_forward n n.
Proof. repeat split; try done. apply records_advanced_refl. Qed.

Lemma moved_forward_trans n1 n2 n3 :
  moved_forward n1 n2 → moved_forward n2 n3 → moved_forward n1 n3.
Proof.
  intros (?&?&?&?) (?&?&?&?). split; [congruence|].
  split; [by eapply records_advanced_trans|]. split; by etrans.
Qed.

Lemma evalNote_moved_forward n gn : moved_forward n (evalNote n gn).1.
Proof. destruct (evalNote_forward n gn) as (?&?&?&?&?). done. Qed.

Lemma evalCertificate_moved_forward n cert : moved_forward n (evalCertificate n cert).1.
Proof.
  destruct (evalCertificate_frame n cert) as (Hs & Hl & Ht & Hk & _).
  split; [done|]. split; [|by rewrite Hl, Ht].
  intros k p Hp. exists p. split; [by apply Hk|apply peer_advanced_refl].
Qed.

(** The nodes [Spread] can leave behind. *)
Lemma Spread_node n ctx args n' r :
  Spread n ctx args = Some (n', r) →
  n' = n ∨ n' = (evalNote n (GetOwnNote args)).1 ∨
  ∃ c, validateCtx ctx = inl c ∧
       (n' = (evalCertificate n (Some c)).1 ∨
        n' = (evalNote (evalCertificate n (Some c)).1 (GetOwnNote args)).1).
Proof.
  unfold Spread. destruct (validateCtx ctx) as [c|err]; [|intros [= <- _]; by left].
  destruct (ShouldBeNeighbour n (SubjectKeyId c)).
  - destruct (evalCertificate n (Some c)) as [n1 [err|]] eqn:Hc.
    + intros [= <- _]. right; right. exists c. split; [done|]. left. by rewrite Hc.
    + destruct (match GetExistingHosts args with Some _ => _ | None => _ end); [|done].
      intros H. simpl in H. injection H as <- _.
      right; right. exists c. split; [done|]. right. by rewrite Hc.
  - destruct (View_Peer (view n) (SubjectKeyId c)) as [peer0|].
    + destruct (Peer_IsAccused peer0).
      * destruct (View_Peer _ _); [|done].
        intros H. simpl in H. injection H as <- _. by right; left.
      * intros H. simpl in H. injection H as <- _. by right; left.
    + destruct (evalCertificate n (Some c)) as [n1 [err|]] eqn:Hc.
      * intros [= <- _]. right; right. exists c. split; [done|]. left. by rewrite Hc.
      * destruct (Peer_Note _); [|done].
        intros H. simpl in H. injection H as <- _.
        right; right. exists c. split; [done|]. right. by rewrite Hc.
Qed.

(** X18. Whatever the request, [Spread] only moves the node forward: the
    local peer's record is unchanged, no peer of the full view is removed,
    no stored note is dropped or goes back in epoch, no accusation is
    stored, no peer leaves the live view and no timer is opened. *)
Theorem Spread_moves_forward (n n' : Node) (ctx : Context)
    (args : option gossip.State)
    (r : option gossip.StateResponse * option error) :
  Spread n ctx args = Some (n', r) →
  self n' = self n ∧
  records_advanced (view n) (view n') ∧
  liveMap (view n) ⊆ liveMap (view n') ∧
  timeoutMap (view n') ⊆ timeoutMap (view n).
Proof.
  intros Hs. apply Spread_node in Hs as [Hn|[Hn|(c & _ & [Hn|Hn])]]; subst n'.
  - apply moved_forward_refl.
  - apply evalNote_moved_forward.
  - apply evalCertificate_moved_forward.
  - eapply moved_forward_trans;
      [apply evalCertificate_moved_forward|apply evalNote_moved_forward].
Qed.

(** X19. [Spread] answers with a response or with an error, never both and
    never neither; and as long as the local peer has a note it always
    answers (no nil note is dereferenced). *)
Theorem Spread_answers (n : Node) (ctx : Context) (args : option gossip.State) :
  is_Some (Peer_Note (self n)) →
  ∃ n', (∃ reply, Spread n ctx args = Some (n', (Some reply, None))) ∨
        (∃ err, Spread n ctx args = Some (n', (None, Some err))).
Proof.
  intros [selfNote HselfNote]. unfold Spread.
  destruct (validateCtx ctx) as [c|err]; [|eauto].
  assert (Hn1 : ∀ m, Peer_Note (self (evalNote (evalCertificate n (Some c)).1 m).1)
                    = Some selfNote).
  { intros m. destruct (evalNote_forward (evalCertificate n (Some c)).1 m) as (_&_&_&_&->).
    destruct (evalCertificate_frame n (Some c)) as (-> & _). done. }
  destruct (ShouldBeNeighbour n (SubjectKeyId c)).
  - specialize (Hn1 (GetOwnNote args)).
    destruct (evalCertificate n (Some c)) as [n1 [err|]]; [eauto|]. simpl in Hn1.
    destruct (GetExistingHosts args) as [hosts|]; simpl; [|eauto].
    unfold mergeViews. rewrite Hn1. simpl.
    destruct (match hosts !! _ with Some _ => _ | None => _ end); simpl; eauto.
  - destruct (View_Peer (view n) (SubjectKeyId c)) as [peer0|] eqn:Hpeer.
    + destruct (Peer_IsAccused peer0); simpl; [|eauto].
      destruct (evalNote_keeps_peers n (GetOwnNote args) (SubjectKeyId c))
        as [peer1 Hpeer1]; [by eexists|].
      unfold View_Peer. rewrite Hpeer1. simpl. eauto.
    + specialize (Hn1 (GetOwnNote args)).
      destruct (evalCertificate n (Some c)) as [n1 [err|]]; [eauto|]. simpl in Hn1.
      rewrite Hn1. simpl. eauto.
Qed.

(** X20. A rejected [Spread] returns no response, and unless the rejection
    is [errNotMyNeighbour] (before which the sender's note is evaluated) it
    leaves the node exactly as it was. *)
Theorem Spread_rejects_untouched (n n' : Node) (ctx : Context)
    (args : option gossip.State) (resp : option gossip.StateResponse) (err : error) :
  Spread n ctx args = Some (n', (resp, Some err)) →
  resp = None ∧ (err ≠ errNotMyNeighbour → n' = n).
Proof.
  unfold Spread. destruct (validateCtx ctx) as [c|e]; [|by intros [= <- <- <-]].
  assert (Hcert : ∀ n1 e, evalCertificate n (Some c) = (n1, Some e) → n1 = n).
  { intros n1 e Hc.
    destruct (evalCertificate_shape n (Some c))
      as [[e' He']|[(c' & _ & _ & He')|(c' & _ & _ & _ & _ & _ & He')]]; congruence. }
  destruct (ShouldBeNeighbour n (SubjectKeyId c)).
  - destruct (evalCertificate n (Some c)) as [n1 [e|]] eqn:Hc.
    + intros [= <- <- <-]. split; [done|]. intros _. by eapply Hcert.
    + destruct (match GetExistingHosts args with Some _ => _ | None => _ end); done.
  - destruct (View_Peer (view n) (SubjectKeyId c)) as [peer0|].
    + destruct (Peer_IsAccused peer0); simpl.
      * destruct (View_Peer _ _); done.
      * intros [= <- <- <-]. done.
    + destruct (evalCertificate n (Some c)) as [n1 [e|]] eqn:Hc.
      * intros [= <- <- <-]. split; [done|]. intros _. by eapply Hcert.
      * destruct (Peer_Note _); done.
Qed.

(** X21. Bootstrap of an unknown sender.  When the sender is neither a
    neighbour nor in the full view and its certificate passes
    [evalCertificate], [Spread] adds the sender to the full view and answers
    with the local certificate followed by the certificates of the
    neighbours found for the sender, the local note first among the notes,
    and no accusation. *)
Theorem Spread_bootstraps_unknown (n : Node) (ctx : Context)
    (args : option gossip.State) (c : X509Certificate) (selfNote : Note) :
  validateCtx ctx = inl c →
  ShouldBeNeighbour n (SubjectKeyId c) = false →
  View_Peer (view n) (SubjectKeyId c) = None →
  (evalCertificate n (Some c)).2 = None →
  Peer_Note (self n) = Some selfNote →
  ∃ n' reply notes,
    Spread n ctx args = Some (n', (Some reply, None)) ∧
    is_Some (View_Peer (view n') (SubjectKeyId c)) ∧
    gossip.Certificates reply
    = gossip.mkCertificate (X509Raw (localCert n))
      :: ((λ p, gossip.mkCertificate (Peer_Certificate p))
            <$> FindNeighbours n' (SubjectKeyId c)) ∧
    gossip.Notes reply = Note_ToPbMsg selfNote :: notes ∧
    gossip.Accusations reply = [] ∧
    gossip.ExternalGossip reply = [].
Proof.
  intros Hctx Hnb Hpeer Hok HselfNote. unfold Spread. rewrite Hctx, Hnb, Hpeer.
  destruct (evalCertificate_frame n (Some c)) as (Hs & _ & _ & _ & _ & Hin).
  destruct (Hin Hok) as (c' & [= <-] & Hin').
  assert (Hlocal : localCert (evalCertificate n (Some c)).1 = localCert n).
  { destruct (evalCertificate_shape n (Some c))
      as [[e' ->]|[(? & _ & _ & ->)|(? & _ & _ & _ & _ & _ & ->)]]; done. }
  destruct (evalCertificate n (Some c)) as [n1 e]. simpl in *. subst e.
  set (n2 := (evalNote n1 (GetOwnNote args)).1).
  assert (Hself2 : Peer_Note (self n2) = Some selfNote).
  { unfold n2. destruct (evalNote_forward n1 (GetOwnNote args)) as (_&_&_&_&->).
    by rewrite Hs. }
  assert (Hlocal2 : localCert n2 = localCert n).
  { unfold n2. destruct (evalNote_shape n1 (GetOwnNote args))
      as [[e' ->]|(?&?&?&?& -> & _)]; done. }
  rewrite Hself2. simpl. rewrite Hlocal2.
  assert (Hloop : ∀ (l : list Peer) r,
    let res := foldl (λ r p,
                 let r1 := gossip.addCertificate (gossip.mkCertificate (Peer_Certificate p)) r in
                 match Peer_Note p with
                 | Some note => gossip.addNote (Note_ToPbMsg note) r1
                 | None => r1
                 end) r l in
    gossip.Certificates res
    = gossip.Certificates r ++ ((λ p, gossip.mkCertificate (Peer_Certificate p)) <$> l) ∧
    (∃ tail, gossip.Notes res = gossip.Notes r ++ tail) ∧
    gossip.Accusations res = gossip.Accusations r ∧
    gossip.ExternalGossip res = gossip.ExternalGossip r).
  { induction l as [|p l IH]; intros r; simpl.
    - rewrite app_nil_r. split; [done|]. split; [exists []; by rewrite app_nil_r|done].
    - specialize (IH (match Peer_Note p with
                      | Some note => gossip.addNote (Note_ToPbMsg note)
                          (gossip.addCertificate (gossip.mkCertificate (Peer_Certificate p)) r)
                      | None => gossip.addCertificate
                                  (gossip.mkCertificate (Peer_Certificate p)) r
                      end)).
      simpl in IH. destruct IH as (Hc & [tail Hn] & Ha & He).
      rewrite Hc, Hn, Ha, He. clear Hc Hn Ha He.
      destruct (Peer_Note p); simpl; rewrite <- ?app_assoc; simpl;
        (split; [done|]); (split; [eexists; done|done]). }
  match goal with |- context [foldl ?f ?r ?l] =>
    destruct (Hloop l r) as (Hc & [tail Hn] & Ha & He) end.
  eexists n2, _, tail. split; [reflexivity|].
  split; [by apply evalNote_keeps_peers|]. simpl in *.
  rewrite Hc, Hn, Ha, He. done.
Qed.

End HandlerProperties.






Lemma evalAccusation_stores_only_valid_witness :
  ∃ nt p',
    Peer_Note (examples.peerOf "p" 1 ∅) = Some nt ∧
    View_Peer (view (@evalAccusation examples.trusting examples.quietNode
                       (examples.pbAccP 1) examples.peerQ (ViewPeer "p")
                       (examples.peerOf "p" 1 ∅)).1) "p" = Some p' ∧
    Peer_RingAccusation p' 0
    = Some (mkAccusation "p" "q" (note_epoch nt) (Note_Mask nt) 0 [] []).
Proof.
  destruct (@evalAccusation_stores_only_valid examples.trusting examples.quietNode
              (@evalAccusation examples.trusting examples.quietNode (examples.pbAccP 1)
                 examples.peerQ (ViewPeer "p") (examples.peerOf "p" 1 ∅)).1
              (examples.pbAccP 1) examples.peerQ (examples.peerOf "p" 1 ∅) "p")
    as (nt & p' & Hnt & _ & _ & _ & _ & Hp' & Hacc).
  - simpl. discriminate.
  - vm_compute. reflexivity.
  - exists nt, p'. split; [exact Hnt|]. split; [exact Hp'|exact Hacc].
Defined.

Lemma evalAccusation_frame_witness :
  liveMap (view (@evalAccusation examples.trusting examples.quietNode
                   (examples.pbAccP 1) examples.peerQ (ViewPeer "p")
                   (examples.peerOf "p" 1 ∅)).1)
  = liveMap (view examples.quietNode).
Proof.
  refine (proj1 (proj2 (@evalAccusation_frame examples.trusting examples.quietNode
            (@evalAccusation examples.trusting examples.quietNode (examples.pbAccP 1)
               examples.peerQ (ViewPeer "p") (examples.peerOf "p" 1 ∅)).1
            (examples.pbAccP 1) examples.peerQ (examples.peerOf "p" 1 ∅) "p" _ _))).
  - simpl. discriminate.
  - vm_compute. reflexivity.
Defined.


Lemma evalNote_accepts_verified_witness :
  ∃ p p',
    View_Peer (view examples.knownNode) "p" = Some p ∧
    View_Peer (view (@evalNote examples.trusting examples.knownNode
                       (Some (examples.noteP 2))).1) "p" = Some p' ∧
    Peer_Note p' = Some (mkNote (Id p) 2 examples.ones [] []).
Proof.
  destruct (@evalNote_accepts_verified examples.trusting examples.knownNode
              (@evalNote examples.trusting examples.knownNode (Some (examples.noteP 2))).1
              (Some (examples.noteP 2)))
    as (p & p' & Hp & _ & _ & _ & Hp' & Hn & _).
  - vm_compute. reflexivity.
  - exists p, p'. split; [exact Hp|]. split; [exact Hp'|exact Hn].
Defined.


Lemma quietNode_inv : view_inv (view examples.quietNode).
Proof.
  assert (Hlook : ∀ k p, viewMap (view examples.quietNode) !! k = Some p →
                         (k = "p" ∧ p = examples.peerOf "p" 1 ∅) ∨
                         (k = "q" ∧ p = examples.peerQ)).
  { intros k p Hk. simpl in Hk.
    apply lookup_insert_Some in Hk as [[<- <-]|[_ Hk]]; [by left|].
    apply lookup_singleton_Some in Hk as [<- <-]. by right. }
  split; [|split; [|split]].
  - intros k p Hk. by destruct (Hlook k p Hk) as [[-> ->]|[-> ->]].
  - intros i Hi. simpl in Hi.
    apply elem_of_union in Hi as [Hi|Hi]; apply elem_of_singleton in Hi; subst i;
      vm_compute; by eexists.
  - intros k p Hk r a Hra.
    destruct (Hlook k p Hk) as [[-> ->]|[-> ->]]; simpl in Hra; by rewrite lookup_empty in Hra.
  - intros k p Hk _ Hne. by destruct (Hlook k p Hk) as [[-> ->]|[-> ->]]; destruct Hne.
Qed.

Lemma evalNote_keeps_invariants_witness :
  view_inv (view (@evalNote examples.trusting examples.quietNode
                    (Some (examples.noteP 2))).1).
Proof.
  apply (@evalNote_keeps_invariants examples.trusting examples.quietNode
           (Some (examples.noteP 2))).
  exact quietNode_inv.
Defined.

Lemma evalAccusation_keeps_invariants_witness :
  view_inv (view (@evalAccusation examples.trusting examples.quietNode
                    (examples.pbAccP 1) examples.peerQ (ViewPeer "p")
                    (examples.peerOf "p" 1 ∅)).1).
Proof.
  apply (@evalAccusation_keeps_invariants examples.trusting examples.quietNode
           (examples.pbAccP 1) examples.peerQ (examples.peerOf "p" 1 ∅) "p").
  - reflexivity.
  - simpl. discriminate.
  - exact quietNode_inv.
Defined.

Lemma evalCertificate_keeps_invariants_witness :
  view_inv (view (@evalCertificate examples.trusting examples.quietNode
                    (Some examples.cert32)).1).
Proof.
  apply (@evalCertificate_keeps_invariants examples.trusting examples.quietNode
           (Some examples.cert32)).
  exact quietNode_inv.
Defined.

Lemma suspect_accusations_wf :
  accusations_wf (examples.peerOf "p" 2 {[ 0 := examples.accP ]}).
Proof.
  intros r a Hra. simpl in Hra. apply lookup_singleton_Some in Hra as [<- <-].
  split; [done|]. split; [done|]. eexists. split; [reflexivity|]. simpl. lia.
Qed.

Lemma evalNote_rebuttal_clears_witness :
  ∃ p', View_Peer (view (@evalNote examples.trusting examples.suspectNode
                           (Some (examples.noteP 3))).1) "p" = Some p' ∧
        accusations p' = ∅ ∧ nPing p' = 0 ∧
        View_IsAlive (view (@evalNote examples.trusting examples.suspectNode
                              (Some (examples.noteP 3))).1) "p" = true ∧
        View_HasTimer (view (@evalNote examples.trusting examples.suspectNode
                               (Some (examples.noteP 3))).1) "p" = false.
Proof.
  apply (@evalNote_rebuttal_clears examples.trusting examples.suspectNode
           (@evalNote examples.trusting examples.suspectNode (Some (examples.noteP 3))).1
           (Some (examples.noteP 3)) (examples.peerOf "p" 2 {[ 0 := examples.accP ]})).
  - reflexivity.
  - intros Hempty. apply (f_equal (λ m : gmap N Accusation, m !! 0)) in Hempty.
    discriminate Hempty.
  - exact suspect_accusations_wf.
  - vm_compute. reflexivity.
Defined.


Lemma mergeViews_reply_contents_witness :
  gossip.mkCertificate [] ∈ gossip.Certificates
    (gossip.mkStateResponse [gossip.mkCertificate []]
       [Note_ToPbMsg (mkNote "p" 5 examples.ones [] []);
        Note_ToPbMsg (mkNote "self" 7 examples.ones [] [])] [] []).
Proof.
  assert (H : mergeViews examples.fresherNode (∅ : gmap string N) gossip.emptyResponse
              = Some (gossip.mkStateResponse [gossip.mkCertificate []]
                        [Note_ToPbMsg (mkNote "p" 5 examples.ones [] []);
                         Note_ToPbMsg (mkNote "self" 7 examples.ones [] [])] [] []))
    by (vm_compute; reflexivity).
  apply (proj2 (proj1 (mergeViews_reply_contents _ _ _ H) (gossip.mkCertificate []))).
  exists (examples.peerOf "p" 5 ∅). split; [|split; reflexivity].
  apply list_elem_of_fmap. exists ("p", examples.peerOf "p" 5 ∅). split; [reflexivity|].
  apply elem_of_map_to_list. reflexivity.
Defined.

Lemma mergeAccusations_only_accuses_witness :
  self (@mergeAccusations examples.trusting examples.quietNode [examples.pbAccP 1])
  = self examples.quietNode.
Proof.
  refine (proj1 (proj2 (@mergeAccusations_only_accuses examples.trusting
            examples.quietNode [examples.pbAccP 1] quietNode_inv _))).
  apply Forall_cons. split; [simpl; discriminate|apply Forall_nil_2].
Defined.

Lemma Spread_moves_forward_witness :
  self (@evalNote examples.trusting examples.accusedNode (Some (examples.noteP 3))).1
  = self examples.accusedNode ∧
  records_advanced (view examples.accusedNode)
    (view (@evalNote examples.trusting examples.accusedNode (Some (examples.noteP 3))).1) ∧
  liveMap (view examples.accusedNode)
  ⊆ liveMap (view (@evalNote examples.trusting examples.accusedNode
                     (Some (examples.noteP 3))).1) ∧
  timeoutMap (view (@evalNote examples.trusting examples.accusedNode
                      (Some (examples.noteP 3))).1)
  ⊆ timeoutMap (view examples.accusedNode).
Proof.
  apply (@Spread_moves_forward examples.trusting examples.accusedNode
           (@evalNote examples.trusting examples.accusedNode (Some (examples.noteP 3))).1
           (mkContext (Some (TLSInfo [mkX509 "p" []])))
           (Some (gossip.mkState (Some (examples.noteP 3)) None None))
           (Some (gossip.mkStateResponse [] [] [] []), None)).
  vm_compute. reflexivity.
Defined.

Lemma Spread_answers_witness :
  ∃ n',
    (∃ reply, @Spread examples.trusting examples.accusedNode
                (mkContext (Some (TLSInfo [mkX509 "p" []])))
                (Some (gossip.mkState (Some (examples.noteP 1)) None None))
              = Some (n', (Some reply, None))) ∨
    (∃ err, @Spread examples.trusting examples.accusedNode
              (mkContext (Some (TLSInfo [mkX509 "p" []])))
              (Some (gossip.mkState (Some (examples.noteP 1)) None None))
            = Some (n', (None, Some err))).
Proof.
  apply (@Spread_answers examples.trusting examples.accusedNode).
  eexists. reflexivity.
Defined.

Lemma Spread_rejects_untouched_witness :
  (None : option gossip.StateResponse) = None ∧
  (errNoPeerInCtx ≠ errNotMyNeighbour → examples.quietNode = examples.quietNode).
Proof.
  apply (@Spread_rejects_untouched examples.trusting examples.quietNode examples.quietNode
           (mkContext None) None None errNoPeerInCtx).
  reflexivity.
Defined.

Lemma Spread_bootstraps_unknown_witness :
  ∃ n' reply notes,
    @Spread examples.trusting examples.quietNode
      (mkContext (Some (TLSInfo [examples.cert32]))) None
    = Some (n', (Some reply, None)) ∧
    is_Some (View_Peer (view n') examples.id32) ∧
    gossip.Certificates reply
    = gossip.mkCertificate [] ::
      ((λ p, gossip.mkCertificate (Peer_Certificate p))
         <$> @FindNeighbours examples.trusting n' examples.id32) ∧
    gossip.Notes reply = Note_ToPbMsg (mkNote "self" 7 examples.ones [] []) :: notes ∧
    gossip.Accusations reply = [] ∧
    gossip.ExternalGossip reply = [].
Proof.
  apply (@Spread_bootstraps_unknown examples.trusting examples.quietNode
           (mkContext (Some (TLSInfo [examples.cert32]))) None examples.cert32
           (mkNote "self" 7 examples.ones [] [])).
  - reflexivity.
  - reflexivity.
  - vm_compute. reflexivity.
  - vm_compute. reflexivity.
  - reflexivity.
Defined.

(** * Further properties of the monitor and the pinger *)

Section StrategyProperties.
Context {env : node.Env}.

(** What one iteration of the monitor keeps, and the timer it leaves for a
    peer whose record it writes. *)
Lemma monitorRing_step n rg :
  node.node_peerId (node.monitorRing n rg).1 = node.node_peerId n ∧
  node.localAddr (node.monitorRing n rg).1 = node.localAddr n ∧
  node.liveMap (node.monitorRing n rg).1 = node.liveMap n ∧
  node.ringMap (node.monitorRing n rg).1 = node.ringMap n ∧
  node.timeoutMap n ⊆ node.timeoutMap (node.monitorRing n rg).1 ∧
  (∀ k, node.viewMap (node.monitorRing n rg).1 !! k = node.viewMap n !! k ∨
        ∃ p, node.viewMap n !! k = Some p ∧
             is_Some (node.timeoutMap (node.monitorRing n rg).1 !! node.key p)).
Proof.
  assert (Hsame : ∀ (m : node.Node),
    m = n →
    node.node_peerId m = node.node_peerId n ∧ node.localAddr m = node.localAddr n ∧
    node.liveMap m = node.liveMap n ∧ node.ringMap m = node.ringMap n ∧
    node.timeoutMap n ⊆ node.timeoutMap m ∧
    (∀ k, node.viewMap m !! k = node.viewMap n !! k ∨
          ∃ p, node.viewMap n !! k = Some p ∧
               is_Some (node.timeoutMap m !! node.key p))).
  { intros m ->. repeat split; try done. intros k. by left. }
  unfold node.monitorRing.
  destruct (node.getRingSucc rg) as [succ|]; [|by apply Hsame].
  case_decide; [by apply Hsame|].
  destruct (node.clientMonitor _ _); [|by apply Hsame].
  destruct (node.getViewPeer n (node.peerKey succ)) as [p0|] eqn:Hp0; [|by apply Hsame].
  destruct (node.getNote p0) as [nt|] eqn:Hnt; [|by apply Hsame].
  destruct (node.signContent _ _ _) as [sig|]; [|by apply Hsame].
  unfold node.setAccusation.
  destruct (node.setAccusationErr _ _); [by apply Hsame|].
  cbn zeta. unfold node.timerExist, node.startTimer, node.storePeer. simpl.
  unfold node.getViewPeer in Hp0.
  case_bool_decide as Ht; simpl.
  - split; [done|]. split; [done|]. split; [done|]. split; [done|]. split; [done|].
    intros k. rewrite lookup_insert. case_decide as Hk; [|by left].
    subst k. right. by exists p0.
  - assert (node.timeoutMap n !! node.key p0 = None) as Hnone.
    { destruct (node.timeoutMap n !! node.key p0) eqn:E; [|done]. destruct Ht. by eexists. }
    split; [done|]. split; [done|]. split; [done|]. split; [done|].
    split; [by apply insert_subseteq|].
    intros k. rewrite lookup_insert. case_decide as Hk; [|by left].
    subst k. right. exists p0. split; [done|]. rewrite lookup_insert_eq. by eexists.
Qed.

Lemma MonitorOver_timers rings n :
  node.timeoutMap n ⊆ node.timeoutMap (node.MonitorOver rings n).
Proof.
  revert n. induction rings as [|rg rings IH]; intros n; [done|].
  simpl. destruct (monitorRing_step n rg) as (_ & _ & _ & _ & H5 & _).
  destruct (node.monitorRing n rg) as [n1 stop]. simpl in *.
  destruct stop; [done|]. etrans; [exact H5|apply IH].
Qed.

Lemma MonitorOver_written rings n k :
  node.viewMap (node.MonitorOver rings n) !! k = node.viewMap n !! k ∨
  ∃ p, node.viewMap n !! k = Some p ∧
       is_Some (node.timeoutMap (node.MonitorOver rings n) !! node.key p).
Proof.
  revert n. induction rings as [|rg rings IH]; intros n; [by left|].
  simpl. destruct (monitorRing_step n rg) as (_ & _ & _ & _ & _ & Hstep).
  specialize (Hstep k).
  destruct (node.monitorRing n rg) as [n1 stop]. simpl in *.
  destruct stop; [done|].
  destruct Hstep as [Hsame|(p & Hp & Ht)].
  - destruct (IH n1) as [Hsame2|(p1 & Hp1 & Ht1)].
    + left. congruence.
    + right. exists p1. split; [congruence|done].
  - right. exists p. split; [done|].
    eapply lookup_weaken_is_Some; [exact Ht|apply MonitorOver_timers].
Qed.

Lemma monitored_keeps me p p' :
  monitored me p p' →
  node.peer_peerId p' = node.peer_peerId p ∧ node.key p' = node.key p ∧
  node.addr p' = node.addr p ∧ node.recentNote p' = node.recentNote p.
Proof. intros [->|(nt & sig & _ & ->)]; done. Qed.

(** X22. A monitor pass, in whatever order it visits the rings, changes
    nothing but accusations and timers: the local id and address, the live
    view and the rings are unchanged, the full view keeps the same peers
    with the same ids, keys, addresses and notes, and no timer that was
    running is replaced or removed (the monitor never takes a peer out of
    the live view itself). *)
Theorem MonitorOver_frame (rings : list node.ring) (n : node.Node) :
  node.node_peerId (node.MonitorOver rings n) = node.node_peerId n ∧
  node.localAddr (node.MonitorOver rings n) = node.localAddr n ∧
  node.liveMap (node.MonitorOver rings n) = node.liveMap n ∧
  node.ringMap (node.MonitorOver rings n) = node.ringMap n ∧
  node.timeoutMap n ⊆ node.timeoutMap (node.MonitorOver rings n) ∧
  dom (node.viewMap (node.MonitorOver rings n)) = dom (node.viewMap n) ∧
  (∀ k p p', node.viewMap n !! k = Some p →
             node.viewMap (node.MonitorOver rings n) !! k = Some p' →
             node.peer_peerId p' = node.peer_peerId p ∧ node.key p' = node.key p ∧
             node.addr p' = node.addr p ∧ node.recentNote p' = node.recentNote p).
Proof.
  assert (Hframe : ∀ rings n,
    node.node_peerId (node.MonitorOver rings n) = node.node_peerId n ∧
    node.localAddr (node.MonitorOver rings n) = node.localAddr n ∧
    node.liveMap (node.MonitorOver rings n) = node.liveMap n ∧
    node.ringMap (node.MonitorOver rings n) = node.ringMap n ∧
    node.timeoutMap n ⊆ node.timeoutMap (node.MonitorOver rings n)).
  { clear rings n. induction rings as [|rg rings IH]; intros n; [done|].
    simpl. destruct (monitorRing_step n rg) as (H1 & H2 & H3 & H4 & H5 & _).
    destruct (node.monitorRing n rg) as [n1 stop]. simpl in *.
    destruct stop; [done|].
    destruct (IH n1) as (H1' & H2' & H3' & H4' & H5').
    repeat split; try congruence. by etrans. }
  destruct (Hframe rings n) as (H1 & H2 & H3 & H4 & H5).
  split; [done|]. split; [done|]. split; [done|]. split; [done|]. split; [done|].
  split.
  - apply set_eq. intros k. rewrite !elem_of_dom.
    pose proof (MonitorOver_monitored rings n k) as Hk. unfold monitored_at in Hk.
    destruct (node.viewMap n !! k), (node.viewMap (node.MonitorOver rings n) !! k);
      try done; split; intros [? ?]; by eexists.
  - intros k p p' Hp Hp'.
    pose proof (MonitorOver_monitored rings n k) as Hk. unfold monitored_at in Hk.
    rewrite Hp, Hp' in Hk. by eapply monitored_keeps.
Qed.

(** X23. When every remote successor answers its ping, a monitor pass
    leaves the node exactly as it was. *)
Theorem MonitorOver_all_answer (rings : list node.ring) (n : node.Node) :
  (∀ rg succ, rg ∈ rings → node.getRingSucc rg = inl succ →
              node.ring_addr succ ≠ node.localAddr n →
              node.clientMonitor (node.ringNum rg) (node.ring_addr succ) = None) →
  node.MonitorOver rings n = n.
Proof.
  induction rings as [|rg rings IH]; intros Hall; [done|].
  simpl.
  assert (Hstep : node.monitorRing n rg = (n, false)).
  { unfold node.monitorRing.
    destruct (node.getRingSucc rg) as [succ|] eqn:Hsucc; [|done].
    case_decide as Haddr; [done|].
    rewrite (Hall rg succ); [done|by left|done|done]. }
  rewrite Hstep. apply IH. intros rg' succ Hin. apply Hall. by right.
Qed.

(** X24. Every peer the monitor accuses has a timer afterwards: if a monitor
    pass changed the accusation of a peer, a timer is running under that
    peer's key when the pass ends. *)
Theorem MonitorOver_accused_has_timer (rings : list node.ring) (n : node.Node)
    (k : string) (p p' : node.peer) :
  node.viewMap n !! k = Some p →
  node.viewMap (node.MonitorOver rings n) !! k = Some p' →
  node.peer_accusation p' ≠ node.peer_accusation p →
  node.timerExist (node.MonitorOver rings n) (node.key p) = true.
Proof.
  intros Hp Hp' Hne. apply bool_decide_eq_true_2.
  destruct (MonitorOver_written rings n k) as [Hsame|(q & Hq & Ht)].
  - rewrite Hp, Hp' in Hsame. injection Hsame as ->. done.
  - rewrite Hp in Hq. by injection Hq as <-.
Qed.


End StrategyProperties.

Section PingProperties.

Lemma ping_dead io dest :
  3 ≤ node.nPing dest → node.ping io dest = (dest, Some node.errDead).
Proof. intros H. unfold node.ping, node.getNPing. by rewrite decide_True. Qed.

(** X26. A peer that has reached three failed pings stays dead for the
    pinger: every further ping returns [errDead] and leaves the peer's
    record untouched, whatever the network would have answered. *)
Theorem pings_dead_stays_dead (ios : list node.PingIO) (dest : node.pingDest) :
  3 ≤ node.nPing dest →
  node.pings ios dest = (dest, replicate (length ios) (Some node.errDead)).
Proof.
  intros Hdead. induction ios as [|io ios IH]; [done|].
  simpl. rewrite (ping_dead io dest Hdead), IH. done.
Qed.

Lemma pings_after_dead ios dest :
  3 ≤ node.nPing dest →
  (node.pings ios dest).1 = dest ∧
  (node.pings ios dest).2 = replicate (length ios) (Some node.errDead).
Proof.
  intros Hdead. induction ios as [|io ios IH]; [done|].
  simpl. rewrite (ping_dead io dest Hdead).
  destruct (node.pings ios dest) as [d l]. simpl in *. destruct IH as [-> ->]. done.
Qed.

Lemma ping_counter io dest :
  node.nPing dest ≤ 3 →
  node.nPing (node.ping io dest).1 ≤ 3 ∧
  ((node.ping io dest).2 = None → node.nPing (node.ping io dest).1 = 0).
Proof.
  intros Hle. unfold node.ping, node.getNPing.
  case_decide as Hd; [done|].
  destruct (node.marshalPing io _) as [data|]; [|done].
  destruct (node.Send io _ data) as [bs|]; [|simpl; split; [lia|done]].
  destruct (node.unmarshalPong io bs) as [resp|]; [|simpl; split; [lia|done]].
  destruct (node.validateSignature io _ _ _ _) as [valid|]; [|simpl; split; [lia|done]].
  destruct valid; simpl; [split; [lia|done]|split; [lia|done]].
Qed.

(** The ping counter never passes the limit: starting from at most
    three, it is at most three after any run of pings, and it is zero after
    a ping that succeeded. *)
Theorem pings_counter_bounded (ios : list node.PingIO) (dest : node.pingDest) :
  node.nPing dest ≤ 3 →
  node.nPing (node.pings ios dest).1 ≤ 3 ∧
  (∀ io, (node.ping io dest).2 = None → node.nPing (node.ping io dest).1 = 0).
Proof.
  intros Hle. split; [|intros io; by apply ping_counter].
  revert dest Hle. induction ios as [|io ios IH]; intros dest Hle; [done|].
  simpl. destruct (ping_counter io dest Hle) as [Hle1 _].
  destruct (node.ping io dest) as [dest1 res]. simpl in *.
  specialize (IH dest1 Hle1). by destruct (node.pings ios dest1).
Qed.

Lemma ping_send_fails io dest :
  send_fails io → node.nPing dest < 3 →
  ∃ e, node.ping io dest = (node.incrementPing dest, Some (node.errPing e)).
Proof.
  intros (data & Hm & Hs) Hlt. unfold node.ping, node.getNPing.
  rewrite decide_False by lia. rewrite Hm.
  destruct (Hs (node.pingAddr (node.incrementPing dest))) as [e ->]. by exists e.
Qed.

(** X27. Three strikes.  When every ping of a run fails at the transport,
    the counter of a peer that started at most at three ends at the smaller
    of three and its start plus the length of the run; the pings made while
    the counter was below three return the transport's error, and every
    later one returns [errDead]. *)
Theorem pings_three_strikes (ios : list node.PingIO) (dest : node.pingDest) :
  Forall send_fails ios →
  node.nPing dest ≤ 3 →
  node.nPing (node.pings ios dest).1
  = N.min (node.nPing dest + N.of_nat (length ios)) 3 ∧
  ∀ (i : nat) res, (node.pings ios dest).2 !! i = Some res →
    if decide (3 ≤ node.nPing dest + N.of_nat i)
    then res = Some node.errDead
    else ∃ e, res = Some (node.errPing e).
Proof.
  intros Hall. revert dest. induction Hall as [|io ios Hio Hall IH]; intros dest Hle.
  { simpl. split; [lia|]. intros i res Hi. by rewrite lookup_nil in Hi. }
  simpl. destruct (decide (3 ≤ node.nPing dest)) as [Hdead|Hlive].
  - rewrite (ping_dead io dest Hdead).
    destruct (pings_after_dead ios dest Hdead) as [Hd Hl].
    destruct (node.pings ios dest) as [d l]. simpl in *. subst d l. split; [lia|].
    intros i res Hi. rewrite decide_True by lia.
    destruct i as [|i]; simpl in Hi; [by injection Hi as <-|].
    apply lookup_replicate in Hi as [-> _]. done.
  - destruct (ping_send_fails io dest Hio) as [e ->]; [lia|].
    destruct (IH (node.incrementPing dest)) as [Hfinal Hres]; [simpl; lia|].
    destruct (node.pings ios (node.incrementPing dest)) as [dest2 ress]. simpl in *.
    split; [rewrite Hfinal; lia|].
    intros i res Hi. destruct i as [|i]; simpl in Hi.
    + injection Hi as <-. rewrite decide_False by lia. by exists e.
    + specialize (Hres i res Hi).
      destruct (decide (3 ≤ node.nPing dest + 1 + N.of_nat i)) as [H3|H3].
      * rewrite decide_True by lia. done.
      * rewrite decide_False by lia. done.
Qed.

(** X28. A ping succeeds exactly when the peer is below the limit, the ping
    marshals, the transport returns bytes that unmarshal to a pong, and the
    pong's signature verifies over the pong's own nonce under the peer's
    public key; the nonce that was sent is never compared with the one
    that came back. *)
Theorem ping_succeeds_exactly (io : node.PingIO) (dest : node.pingDest) :
  (node.ping io dest).2 = None ↔
  node.nPing dest < 3 ∧
  ∃ data bs resp,
    node.marshalPing io (node.genNonce io) = inl data ∧
    node.Send io (node.pingAddr dest) data = inl bs ∧
    node.unmarshalPong io bs = inl resp ∧
    node.validateSignature io (node.GetR (node.Pong_Signature resp))
      (node.GetS (node.Pong_Signature resp)) (node.Pong_Nonce resp)
      (node.publicKey dest) = inl true.
Proof.
  unfold node.ping, node.getNPing. split.
  - case_decide as Hd; [done|].
    destruct (node.marshalPing io _) as [data|] eqn:Hm; [|done].
    destruct (node.Send io _ data) as [bs|] eqn:Hs; [|done].
    destruct (node.unmarshalPong io bs) as [resp|] eqn:Hu; [|done].
    destruct (node.validateSignature io _ _ _ _) as [valid|] eqn:Hv; [|done].
    destruct valid; [|done]. intros _. split; [lia|]. by exists data, bs, resp.
  - intros (Hlt & data & bs & resp & Hm & Hs & Hu & Hv).
    rewrite decide_False by lia. rewrite Hm. simpl. rewrite Hs, Hu. simpl. by rewrite Hv.
Qed.

(** X29. Pinger and responder fit together.  If the transport hands the
    ping to a responder that runs [signPong] and brings its answer back,
    unmarshalling undoes marshalling, and signatures made by the responder
    verify under the public key the pinger holds, then the ping of a peer
    below the limit succeeds and resets its counter. *)
Theorem ping_signPong_roundtrip (io : node.PingIO) (dest : node.pingDest)
    (sign : bytes → node.signature + error)
    (marshal : node.Pong → bytes + error) (data bs : bytes) :
  node.nPing dest < 3 →
  node.marshalPing io (node.genNonce io) = inl data →
  node.signPong sign marshal data = inl bs →
  node.Send io (node.pingAddr dest) data = inl bs →
  (∀ pong out, marshal pong = inl out → node.unmarshalPong io out = inl pong) →
  (∀ d sg, sign d = inl sg →
           node.validateSignature io (node.r sg) (node.s sg) d (node.publicKey dest)
           = inl true) →
  node.ping io dest
  = (node.resetPing (node.setAvgLoss io (node.incrementPing dest)), None).
Proof.
  intros Hlt Hm Hpong Hsend Hcodec Hsig. unfold node.signPong in Hpong.
  destruct (sign data) as [sg|] eqn:Hsg; [|done].
  destruct (marshal (node.mkPong data (Some sg))) as [out|] eqn:Hout; [|done].
  injection Hpong as ->.
  unfold node.ping, node.getNPing. rewrite decide_False by lia.
  rewrite Hm. simpl. rewrite Hsend, (Hcodec _ _ Hout). simpl.
  by rewrite (Hsig data sg Hsg).
Qed.

Lemma falseAccusations_closed signAcc me peers acc res :
  node.falseAccusations signAcc me peers acc = inl res →
  ∃ l, res = acc ++ l ∧
       Forall2 (λ nt a, ∃ sg, signAcc (falseAccusationOf me nt) = inl sg ∧
                              a = node.mkPbAccusation (node.add64 (node.epoch nt) 1) me
                                    (node.id (node.note_peerId nt)) (Some sg))
               (omap node.getNote peers) l.
Proof.
  revert acc. induction peers as [|p peers IH]; intros acc; simpl.
  - intros [= <-]. exists []. by rewrite app_nil_r.
  - destruct (node.getNote p) as [nt|] eqn:Hnt; [|apply IH].
    destruct (signAcc _) as [sg|] eqn:Hsg; [|done].
    intros Hres. destruct (IH _ Hres) as (l & -> & Hl).
    eexists (_ :: l). rewrite <- app_assoc. split; [done|].
    apply Forall2_cons. split; [|done]. by exists sg.
Qed.

(** X30. [createFalseAccusations], when it returns a message, has fabricated
    exactly one accusation for each peer that has a note (in the order of
    the view, none for a peer without note), each one epoch ahead of that
    peer's note, accusing the note's owner in the local peer's name and
    signed; the message carries one note, the local peer's own at the given
    epoch. *)
Theorem createFalseAccusations_one_per_note
    (signAcc : node.PbAccusation → node.signature + error)
    (signNote : node.PbNote → node.signature + error)
    (n : node.Node) (peers : list node.peer) (epoch : N) (msg : node.GossipMsg) :
  node.createFalseAccusationsOver signAcc signNote n peers epoch = inl msg →
  Forall2 (λ nt a, node.PbAcc_Epoch a = (node.epoch nt + 1) mod 2 ^ 64 ∧
                   node.PbAcc_Accuser a = node.id (node.node_peerId n) ∧
                   node.PbAcc_Accused a = node.id (node.note_peerId nt) ∧
                   is_Some (node.PbAcc_Signature a))
          (omap node.getNote peers) (node.Msg_Accusations msg) ∧
  ∃ sg, node.Msg_Notes msg
        = [node.mkPbNote epoch (node.id (node.node_peerId n)) (Some sg)].
Proof.
  unfold node.createFalseAccusationsOver.
  destruct (node.falseAccusations signAcc _ peers []) as [accs|] eqn:Haccs; [|done].
  destruct (signNote _) as [sg|]; [|done]. intros [= <-]. simpl.
  split; [|by exists sg].
  destruct (falseAccusations_closed _ _ _ _ _ Haccs) as (l & -> & Hl). simpl.
  eapply Forall2_impl; [exact Hl|].
  intros nt a (sg' & _ & ->). simpl. split; [done|]. split; [done|]. split; [done|].
  by eexists.
Qed.

Lemma Rebuttal_loop (me : string) (msg : node.GossipMsg) (neighbours : list string)
    (sent : list (string * node.GossipMsg)) :
  foldl (λ sent a, if decide (a = me) then sent else sent ++ [(a, msg)]) sent neighbours
  = sent ++ ((λ a, (a, msg)) <$> filter (λ a, a ≠ me) neighbours).
Proof.
  revert sent. induction neighbours as [|a l IH]; intros sent; simpl.
  - by rewrite app_nil_r.
  - rewrite IH. case_decide as Ha.
    + by rewrite filter_cons_False by (intros H; by apply H).
    + rewrite filter_cons_True by done. simpl. by rewrite <- app_assoc.
Qed.

(** [correct.Rebuttal] gossips one and the same message, holding only
    the local peer's note at the given epoch with its signature, to every
    neighbour address other than the local one, in order and once per
    entry; it never gossips to the local address, and it sends nothing when
    signing fails. *)
Theorem Rebuttal_recipients (signNote : node.PbNote → node.signature + error)
    (n : node.Node) (neighbours : list string) (epoch : N) :
  match signNote (node.mkPbNote epoch (node.id (node.node_peerId n)) None) with
  | inr _ => node.Rebuttal signNote n neighbours epoch = []
  | inl sg =>
      node.Rebuttal signNote n neighbours epoch
      = (λ a, (a, node.mkGossipMsg
                    [node.mkPbNote epoch (node.id (node.node_peerId n)) (Some sg)] []))
          <$> filter (λ a, a ≠ node.localAddr n) neighbours
  end.
Proof.
  unfold node.Rebuttal.
  destruct (signNote _) as [sg|]; [|done]. simpl. by rewrite Rebuttal_loop.
Qed.

End PingProperties.

Lemma MonitorOver_all_answer_witness :
  @node.MonitorOver reachable [node.mkRing 0 (inl (node.mkRingId "s:1" "s"))]
     examples.monitorNode = examples.monitorNode.
Proof.
  apply (@MonitorOver_all_answer reachable).
  intros rg succ _ _ _. reflexivity.
Defined.

Lemma MonitorOver_accused_has_timer_witness :
  node.timerExist
    (@node.MonitorOver examples.unreachable
       [node.mkRing 0 (inl (node.mkRingId "s:1" "s"))] examples.monitorNode) "s" = true.
Proof.
  apply (@MonitorOver_accused_has_timer examples.unreachable
           [node.mkRing 0 (inl (node.mkRingId "s:1" "s"))] examples.monitorNode "s"
           (node.mkPeer examples.idS "s" "s:1" (Some examples.noteS) None)
           (node.mkPeer examples.idS "s" "s:1" (Some examples.noteS)
              (Some (node.mkAccusation examples.idS 2 (node.mkPeerId [Byte.x6d]) []
                       (Some (node.mkSignature [] [])))))).
  - reflexivity.
  - vm_compute. reflexivity.
  - simpl. discriminate.
Defined.


Lemma pings_dead_stays_dead_witness :
  node.pings [echoIO; echoIO] deadDest
  = (deadDest, [Some node.errDead; Some node.errDead]).
Proof. apply (pings_dead_stays_dead [echoIO; echoIO] deadDest). simpl. lia. Defined.

Lemma pings_counter_bounded_witness :
  node.nPing (node.pings [deafIO; echoIO; deafIO] freshDest).1 ≤ 3.
Proof.
  apply (proj1 (pings_counter_bounded [deafIO; echoIO; deafIO] freshDest
                  ltac:(simpl; lia))).
Defined.

Lemma deafIO_send_fails : send_fails deafIO.
Proof. exists [Byte.x2a]. split; [reflexivity|]. intros a. by eexists. Qed.

Lemma pings_three_strikes_witness :
  node.nPing (node.pings [deafIO; deafIO; deafIO; deafIO] freshDest).1 = 3.
Proof.
  apply (proj1 (pings_three_strikes [deafIO; deafIO; deafIO; deafIO] freshDest
                  ltac:(repeat (apply Forall_cons; split; [exact deafIO_send_fails|]);
                        apply Forall_nil_2)
                  ltac:(simpl; lia))).
Defined.

Lemma ping_signPong_roundtrip_witness :
  node.ping echoIO freshDest
  = (node.resetPing (node.setAvgLoss echoIO (node.incrementPing freshDest)), None).
Proof.
  apply (ping_signPong_roundtrip echoIO freshDest emptySign nonceMarshal
           [Byte.x2a] [Byte.x2a]).
  - simpl. lia.
  - reflexivity.
  - reflexivity.
  - reflexivity.
  - intros [nonce [[[|] [|]]|]] out; simpl; try discriminate.
    by intros [= <-].
  - intros d sg _. reflexivity.
Defined.

Lemma createFalseAccusations_one_per_note_witness :
  Forall2 (λ nt a, node.PbAcc_Epoch a = (node.epoch nt + 1) mod 2 ^ 64 ∧
                   node.PbAcc_Accuser a = [Byte.x6d] ∧
                   node.PbAcc_Accused a = node.id (node.note_peerId nt) ∧
                   is_Some (node.PbAcc_Signature a))
          [examples.noteS]
          [node.mkPbAccusation 2 [Byte.x6d] [Byte.x73] (Some (node.mkSignature [] []))].
Proof.
  apply (proj1 (createFalseAccusations_one_per_note
                  (λ _, inl (node.mkSignature [] [])) (λ _, inl (node.mkSignature [] []))
                  examples.monitorNode
                  [node.mkPeer examples.idS "s" "s:1" (Some examples.noteS) None] 7
                  (node.mkGossipMsg
                     [node.mkPbNote 7 [Byte.x6d] (Some (node.mkSignature [] []))]
                     [node.mkPbAccusation 2 [Byte.x6d] [Byte.x73]
                        (Some (node.mkSignature [] []))])
                  ltac:(vm_compute; reflexivity))).
Defined.
